(** * The mdl-ext collapsible component, embedded in Rocq

    A shallow embedding of [src/collapsible/collapsible.js]: the internal
    [Collapsible] class and the public [MaterialExtCollapsible] adapter.

    The DOM is split in two parts.  The shape of the document (which element
    is a child of which, and every element's node name) never changes while
    the component runs, so it is a read-only rose tree of element handles.
    The attributes are the mutable part: a finite map from element handles to
    attribute maps, threaded through every method together with the number
    of [randomString()] calls made so far.  JavaScript exceptions do not roll
    the DOM back, so a method returns its completion (normal or thrown)
    together with the state reached. *)

From Stdlib Require Import Ascii String.
From stdpp Require Import base option list strings gmap.

Local Open Scope string_scope.
Local Open Scope list_scope.
Local Set Warnings "-register-all".

(** ** JavaScript strings *)

Module Js.

(** [String.prototype.toLowerCase], on the characters that matter for the
    comparisons with ['false'] and ['button']: a byte in [A-Z] is mapped to
    [a-z], every other byte is kept.  (No character outside ASCII lowers
    to one of the letters of those two words.) *)
Definition lower_ascii (c : ascii) : ascii :=
  let n := nat_of_ascii c in
  if (65 <=? n)%nat && (n <=? 90)%nat then ascii_of_nat (n + 32) else c.

Fixpoint toLowerCase (s : string) : string :=
  match s with
  | EmptyString => EmptyString
  | String c r => String (lower_ascii c) (toLowerCase r)
  end.

(** [s.split(sep)] for a one-character class of separators [sep]: the
    pieces between separators, empty pieces included, so that the result
    is never the empty list. *)
Fixpoint split_on (sep : ascii -> bool) (s : string) : list string :=
  match s with
  | EmptyString => [EmptyString]
  | String c r =>
      if sep c then EmptyString :: split_on sep r
      else match split_on sep r with
           | [] => [String c EmptyString]
           | w :: ws => String c w :: ws
           end
  end.

Definition is_space (c : ascii) : bool := Ascii.eqb c " "%char.

(** [s.split(' ')] *)
Definition split (s : string) : list string := split_on is_space s.

(** [a.join(' ')] *)
Fixpoint join (l : list string) : string :=
  match l with
  | [] => EmptyString
  | [x] => x
  | x :: r => x +:+ " " +:+ join r
  end.

(** [a.find(x => v === x)] followed by the truthiness test of [!...]: the
    element found is a string, and the empty string is falsy. *)
Definition find (v : string) (l : list string) : option string :=
  List.find (String.eqb v) l.

Definition truthy (o : option string) : bool :=
  match o with
  | Some EmptyString => false
  | Some _ => true
  | None => false
  end.

Fixpoint has_char (p : ascii -> bool) (s : string) : bool :=
  match s with
  | EmptyString => false
  | String c r => p c || has_char p r
  end.

End Js.

(** ** The document *)

(** An element of the tree: its handle, its node name and its element
    children in document order. *)
Inductive node : Type :=
| Element (handle : nat) (nodeName : string) (children : list node).

Definition handle_of (n : node) : nat :=
  match n with Element h _ _ => h end.

Definition children_of (n : node) : list node :=
  match n with Element _ _ k => k end.

(** Handles with node names, in tree order (the element itself first). *)
Fixpoint preorder (n : node) : list (nat * string) :=
  match n with
  | Element h nm kids => (h, nm) :: flat_map preorder kids
  end.

(** The first element with handle [h], in tree order. *)
Fixpoint find_node (h : nat) (n : node) : option node :=
  match n with
  | Element h' _ kids =>
      if Nat.eqb h' h then Some n
      else (fix scan (l : list node) : option node :=
              match l with
              | [] => None
              | k :: rest =>
                  match find_node h k with
                  | Some r => Some r
                  | None => scan rest
                  end
              end) kids
  end.

(** The element siblings that follow the element [h], nearest first: the
    chain [h.nextElementSibling], [h.nextElementSibling.nextElementSibling],
    ...  The root, and a handle that is not in the tree, have none. *)
Fixpoint siblings_after (h : nat) (n : node) : option (list node) :=
  match n with
  | Element _ _ kids =>
      (fix scan (l : list node) : option (list node) :=
         match l with
         | [] => None
         | k :: rest =>
             if Nat.eqb (handle_of k) h then Some rest
             else match siblings_after h k with
                  | Some r => Some r
                  | None => scan rest
                  end
         end) kids
  end.

(** ** The mutable part of the DOM and the completion of a method *)

Record dom : Type := Dom {
  attrs : gmap nat (gmap string string);
  drawn : nat
}.

Inductive exn : Type :=
| Error (message : string)          (* [throw new Error(message)] *)
| TypeError                          (* a member of [null] is read *)
| SyntaxError (selector : string)    (* the selector or token does not parse *)
| InvalidCharacterError              (* a class token holds white space *)
| Unsupported (selector : string).   (* a selector this model does not cover *)

Inductive completion (A : Type) : Type :=
| Normal (a : A)
| Throw (e : exn).
Arguments Normal {A} a.
Arguments Throw {A} e.

Definition M (A : Type) : Type := dom -> completion A * dom.

Definition ret {A} (a : A) : M A := fun s => (Normal a, s).

Definition throw {A} (e : exn) : M A := fun s => (Throw e, s).

Definition bind {A B} (m : M A) (k : A -> M B) : M B :=
  fun s =>
    match m s with
    | (Normal a, s') => k a s'
    | (Throw e, s') => (Throw e, s')
    end.

Declare Scope js_scope.
Delimit Scope js_scope with js.
Notation "x <- m ;; k" := (bind m (fun x => k))
  (at level 100, m at next level, right associativity) : js_scope.
Notation "m ;;; k" := (bind m (fun _ => k))
  (at level 100, right associativity) : js_scope.
Local Open Scope js_scope.

(** [a.forEach(f)]: the calls in order, stopping at the first that throws. *)
Fixpoint forEach {A} (f : A -> M unit) (l : list A) : M unit :=
  match l with
  | [] => ret tt
  | x :: r => f x ;;; forEach f r
  end.

(** [a.map(f)] for an [f] that may throw. *)
Fixpoint mapM {A B} (f : A -> M B) (l : list A) : M (list B) :=
  match l with
  | [] => ret []
  | x :: r => y <- f x ;; ys <- mapM f r ;; ret (y :: ys)
  end.

Definition gets {A} (f : dom -> A) : M A := fun s => (Normal (f s), s).

(** A member access on a reference that may be [null]. *)
Definition deref {A} (o : option A) : M A :=
  match o with
  | Some a => ret a
  | None => throw TypeError
  end.

(** ** Element attributes *)

Definition attributes (s : dom) (h : nat) : gmap string string :=
  default ∅ (attrs s !! h).

(** The value of attribute [a] of element [h], [None] for JavaScript's
    [null]. *)
Definition attr (s : dom) (h : nat) (a : string) : option string :=
  attributes s h !! a.

Definition put_attr (h : nat) (a v : string) (s : dom) : dom :=
  Dom (<[h := <[a := v]> (attributes s h)]> (attrs s)) (drawn s).

Definition del_attr (h : nat) (a : string) (s : dom) : dom :=
  Dom (<[h := delete a (attributes s h)]> (attrs s)) (drawn s).

Definition getAttribute (h : nat) (a : string) : M (option string) :=
  gets (fun s => attr s h a).

Definition hasAttribute (h : nat) (a : string) : M bool :=
  gets (fun s => bool_decide (is_Some (attr s h a))).

Definition setAttribute (h : nat) (a v : string) : M unit :=
  fun s => (Normal tt, put_attr h a v s).

Definition removeAttribute (h : nat) (a : string) : M unit :=
  fun s => (Normal tt, del_attr h a s).

(** The [id] property reflects the attribute: the getter answers the empty
    string when the attribute is absent. *)
Definition id_of (s : dom) (h : nat) : string := default "" (attr s h "id").

Definition get_id (h : nat) : M string := gets (fun s => id_of s h).

Definition set_id (h : nat) (v : string) : M unit := setAttribute h "id" v.

(** Two states that no [getAttribute] call can tell apart. *)
Definition same_attributes (s1 s2 : dom) : Prop :=
  forall h a, attr s1 h a = attr s2 h a.

(** ** [classList] *)

Definition is_ascii_whitespace (c : ascii) : bool :=
  let n := nat_of_ascii c in
  (n =? 9)%nat || (n =? 10)%nat || (n =? 12)%nat || (n =? 13)%nat || (n =? 32)%nat.

(** First occurrences only, in order: an ordered set. *)
Fixpoint nub (l : list string) : list string :=
  match l with
  | [] => []
  | x :: r => x :: List.filter (fun y => negb (String.eqb x y)) (nub r)
  end.

Definition nonempty (x : string) : bool := negb (String.eqb x "").

(** The ordered-set parser of the DOM standard, applied to the value of a
    [class] attribute. *)
Definition token_set (v : string) : list string :=
  nub (List.filter nonempty (Js.split_on is_ascii_whitespace v)).

Definition mem (x : string) (l : list string) : bool :=
  existsb (String.eqb x) l.

Definition classList (s : dom) (h : nat) : list string :=
  token_set (default "" (attr s h "class")).

Definition classList_contains (s : dom) (h : nat) (c : string) : bool :=
  mem c (classList s h).

(** [h.classList.add(c)]: the token is validated, appended to the token set
    when it is not a member, and the [class] attribute is rewritten with the
    serialized set. *)
Definition classList_add (h : nat) (c : string) : M unit :=
  if String.eqb c "" then throw (SyntaxError c)
  else if Js.has_char is_ascii_whitespace c then throw InvalidCharacterError
  else fun s =>
         let ts := classList s h in
         let ts' := if mem c ts then ts else ts ++ [c] in
         setAttribute h "class" (Js.join ts') s.

(** ** Selectors *)

Definition is_letter (c : ascii) : bool :=
  let n := nat_of_ascii c in
  ((65 <=? n)%nat && (n <=? 90)%nat) || ((97 <=? n)%nat && (n <=? 122)%nat).

Definition is_digit (c : ascii) : bool :=
  let n := nat_of_ascii c in (48 <=? n)%nat && (n <=? 57)%nat.

Definition name_start (c : ascii) : bool := is_letter c || Ascii.eqb c "_"%char.

Definition name_char (c : ascii) : bool :=
  name_start c || is_digit c || Ascii.eqb c "-"%char.

Fixpoint all_chars (p : ascii -> bool) (s : string) : bool :=
  match s with
  | EmptyString => true
  | String c r => p c && all_chars p r
  end.

(** How the text after [#] or [.] in a selector is read.  A name made of
    ASCII letters, digits, [_] and [-] is an identifier when it starts with
    a letter or [_], or with [-] followed by a letter or [_]; a name that
    is empty, starts with a digit, or starts with [-] followed by a digit or
    by nothing, makes the selector invalid.  Anything else (escapes, other
    punctuation, characters outside ASCII, a leading [--]) may form a larger
    selector and is not covered. *)
Inductive name_kind : Type := Identifier | Malformed | Beyond.

Definition classify (name : string) : name_kind :=
  if all_chars name_char name then
    match name with
    | EmptyString => Malformed
    | String c r =>
        if name_start c then Identifier
        else if is_digit c then Malformed
        else match r with
             | EmptyString => Malformed
             | String d _ =>
                 if name_start d then Identifier
                 else if is_digit d then Malformed
                 else Beyond
             end
    end
  else Beyond.

Definition first_with (p : nat -> bool) (l : list (nat * string)) : option nat :=
  fst <$> List.find (fun e => p (fst e)) l.

Definition has_id (s : dom) (name : string) (h : nat) : bool :=
  match attr s h "id" with
  | Some v => String.eqb v name
  | None => false
  end.

(** ** The component *)

Definition JS_COLLAPSIBLE : string := "mdlext-js-collapsible".
Definition COLLAPSIBLE_CONTROL_CLASS : string := "mdlext-collapsible-control".
Definition COLLAPSIBLE_REGION_CLASS : string := "mdlext-collapsible-region".

Definition missing_control_message : string :=
  "A collapsible must contain an element with class=" +:+
  String (ascii_of_nat 34) COLLAPSIBLE_CONTROL_CLASS +:+
  String (ascii_of_nat 34) "".

(** The fields of a [Collapsible] object. *)
Record Collapsible : Type := MkCollapsible {
  element_ : nat;
  controlElement_ : option nat
}.

(** The fields of a [MaterialExtCollapsible] object. *)
Record MaterialExtCollapsible : Type := MkWidget {
  widget_element_ : option nat;
  collapsible : option Collapsible
}.

Section Component.

(** The page the component lives in, and the two imports of the module
    whose sources are not part of the repository snapshot:
    [randomString] of [utils/string-utils] (the [n]-th call answers
    [randomString n]) and the constant [IS_UPGRADED] of
    [utils/constants]. *)
Variable document : node.
Variable randomString : nat -> string.
Variable IS_UPGRADED : string.

Definition nodeName (h : nat) : string :=
  default "" (snd <$> List.find (fun e => Nat.eqb (fst e) h) (preorder document)).

(** [document.querySelector(sel)] for the selectors [#name]. *)
Definition document_querySelector (sel : string) : M (option nat) :=
  match sel with
  | String "#" name =>
      match classify name with
      | Identifier =>
          gets (fun s => first_with (has_id s name) (preorder document))
      | Malformed => throw (SyntaxError sel)
      | Beyond => throw (Unsupported sel)
      end
  | _ => throw (Unsupported sel)
  end.

(** The descendants of [h] in tree order, [h] itself excluded. *)
Definition descendants (h : nat) : list (nat * string) :=
  match find_node h document with
  | Some n => flat_map preorder (children_of n)
  | None => []
  end.

(** [h.querySelector(sel)] for the selectors [.name]. *)
Definition element_querySelector (h : nat) (sel : string) : M (option nat) :=
  match sel with
  | String "." name =>
      match classify name with
      | Identifier =>
          gets (fun s =>
                  first_with (fun e => classList_contains s e name) (descendants h))
      | Malformed => throw (SyntaxError sel)
      | Beyond => throw (Unsupported sel)
      end
  | _ => throw (Unsupported sel)
  end.

(** The following element siblings of [h], nearest first. *)
Definition nextElementSiblings (h : nat) : list nat :=
  handle_of <$> default [] (siblings_after h document).

Definition random : M string :=
  fun s => (Normal (randomString (drawn s)), Dom (attrs s) (S (drawn s))).

(** *** class Collapsible *)

Definition controlElement (this : Collapsible) : option nat :=
  controlElement_ this.

Definition element (this : Collapsible) : nat := element_ this.

Definition regionIds (this : Collapsible) : M (list string) :=
  c <- deref (controlElement this) ;;
  has <- hasAttribute c "aria-controls" ;;
  if has : bool then
    v <- getAttribute c "aria-controls" ;;
    v <- deref v ;;
    ret (Js.split v)
  else ret [].

Definition regionElements (this : Collapsible) : M (list nat) :=
  ids <- regionIds this ;;
  els <- mapM (fun id => document_querySelector ("#" +:+ id)) ids ;;
  ret (omap (fun el => el) els).

Definition collapse (this : Collapsible) : M unit :=
  c <- deref (controlElement this) ;;
  setAttribute c "aria-expanded" "false" ;;;
  regions <- regionElements this ;;
  forEach (fun region => setAttribute region "hidden" "") regions.

Definition expand (this : Collapsible) : M unit :=
  c <- deref (controlElement this) ;;
  setAttribute c "aria-expanded" "true" ;;;
  regions <- regionElements this ;;
  forEach (fun region => removeAttribute region "hidden") regions.

Definition toggle (this : Collapsible) : M unit :=
  c <- deref (controlElement this) ;;
  v <- getAttribute c "aria-expanded" ;;
  v <- deref v ;;
  if String.eqb (Js.toLowerCase v) "false" then expand this
  else collapse this.

Definition addRegionId (this : Collapsible) (regionId : string) : M unit :=
  ids <- regionIds this ;;
  if negb (Js.truthy (Js.find regionId ids)) then
    c <- deref (controlElement this) ;;
    setAttribute c "aria-controls" (Js.join (ids ++ [regionId]))
  else ret tt.

Definition addRegionElement (this : Collapsible) (region : option nat) : M unit :=
  r <- deref region ;;
  has <- hasAttribute r "id" ;;
  (if negb has then
     n <- random ;;
     set_id r ("region-" +:+ n)
   else ret tt) ;;;
  classList_add r COLLAPSIBLE_REGION_CLASS ;;;
  setAttribute r "role" "region" ;;;
  c <- deref (controlElement this) ;;
  v <- getAttribute c "aria-expanded" ;;
  v <- deref v ;;
  (if String.eqb (Js.toLowerCase v) "false" then setAttribute r "hidden" ""
   else removeAttribute r "hidden") ;;;
  has <- hasAttribute r "tabindex" ;;
  (if negb has then setAttribute r "tabindex" "-1" else ret tt) ;;;
  id <- get_id r ;;
  addRegionId this id.

Definition removeRegionElement (this : Collapsible) (region : option nat) : M unit :=
  match region with
  | None => ret tt
  | Some r =>
      id <- get_id r ;;
      if nonempty id then
        ids <- regionIds this ;;
        rid <- get_id r ;;
        let ids := List.filter (fun id => String.eqb id rid) ids in
        c <- deref (controlElement this) ;;
        setAttribute c "aria-controls" (Js.join ids)
      else ret tt
  end.

(** The [while (r)] loop of [initRegions] over the chain of following
    siblings, with the array [regions] it pushes to. *)
Fixpoint walk (s : dom) (rs : list nat) (regions : list nat) : list nat :=
  match rs with
  | [] => regions
  | r :: rest =>
      if classList_contains s r COLLAPSIBLE_REGION_CLASS then
        walk s rest (regions ++ [r])
      else if classList_contains s r JS_COLLAPSIBLE then regions
      else walk s rest regions
  end.

Definition initControl (this : Collapsible) : M Collapsible :=
  found <- element_querySelector (element this) ("." +:+ COLLAPSIBLE_CONTROL_CLASS) ;;
  let this := MkCollapsible (element_ this) found in
  match controlElement this with
  | None => throw (Error missing_control_message)
  | Some c =>
      has <- hasAttribute c "aria-expanded" ;;
      (if negb has then setAttribute c "aria-expanded" "false" else ret tt) ;;;
      (if negb (String.eqb (Js.toLowerCase (nodeName c)) "button") then
         setAttribute c "role" "button"
       else ret tt) ;;;
      has <- hasAttribute c "tabindex" ;;
      (if negb has then setAttribute c "tabindex" "0" else ret tt) ;;;
      ret this
  end.

Definition initRegions (this : Collapsible) : M unit :=
  c <- deref (controlElement this) ;;
  has <- hasAttribute c "aria-controls" ;;
  regions <- (if negb has then
                gets (fun s => walk s (nextElementSiblings (element this)) [])
              else regionElements this) ;;
  forEach (fun region => addRegionElement this (Some region)) regions.

Definition init (this : Collapsible) : M Collapsible :=
  this <- initControl this ;;
  initRegions this ;;;
  ret this.

(** [new Collapsible(element)] *)
Definition new_Collapsible (element : nat) : M Collapsible :=
  init (MkCollapsible element None).

(** *** MaterialExtCollapsible *)

Definition widget_init (this : MaterialExtCollapsible)
  : M MaterialExtCollapsible :=
  match widget_element_ this with
  | Some el =>
      c <- new_Collapsible el ;;
      classList_add el IS_UPGRADED ;;;
      ret (MkWidget (widget_element_ this) (Some c))
  | None => ret this
  end.

(** [new MaterialExtCollapsible(element)] *)
Definition new_MaterialExtCollapsible (element : option nat)
  : M MaterialExtCollapsible :=
  widget_init (MkWidget element None).

Definition getControlElement (this : MaterialExtCollapsible) : M (option nat) :=
  c <- deref (collapsible this) ;;
  ret (controlElement c).

Definition getRegionElements (this : MaterialExtCollapsible) : M (list nat) :=
  c <- deref (collapsible this) ;;
  regionElements c.

Definition addRegionElements (this : MaterialExtCollapsible)
    (elements : list (option nat)) : M unit :=
  forEach (fun element =>
             c <- deref (collapsible this) ;; addRegionElement c element)
          elements.

Definition removeRegionElements (this : MaterialExtCollapsible)
    (elements : list (option nat)) : M unit :=
  forEach (fun element =>
             c <- deref (collapsible this) ;; removeRegionElement c element)
          elements.

Definition widget_expand (this : MaterialExtCollapsible) : M unit :=
  c <- deref (collapsible this) ;; expand c.

Definition widget_collapse (this : MaterialExtCollapsible) : M unit :=
  c <- deref (collapsible this) ;; collapse c.

Definition widget_toggle (this : MaterialExtCollapsible) : M unit :=
  c <- deref (collapsible this) ;; toggle c.

End Component.

(** * Views of the state used in the statements *)

(** The ids the control lists in [aria-controls], read off a state. *)
Definition listed (s : dom) (c : nat) : list string :=
  match attr s c "aria-controls" with
  | Some v => Js.split v
  | None => []
  end.


(** The element [document.querySelector('#' + id)] answers for an id that is
    an identifier: the first element in tree order whose [id] attribute is
    [id]. *)
Definition by_id (document : node) (s : dom) (id : string) : option nat :=
  first_with (has_id s id) (preorder document).

(** The region elements of a control: the listed ids that resolve. *)
Definition regions_of (document : node) (s : dom) (c : nat) : list nat :=
  omap (by_id document s) (listed s c).

Definition is_identifier (name : string) : bool :=
  match classify name with
  | Identifier => true
  | _ => false
  end.

(** The first listed id whose selector [document.querySelector] rejects,
    and what it throws for it. *)
Definition first_bad (ids : list string) : option string :=
  List.find (fun id => negb (is_identifier id)) ids.

Definition selector_failure (id : string) : exn :=
  match classify id with
  | Malformed => SyntaxError ("#" +:+ id)
  | _ => Unsupported ("#" +:+ id)
  end.

(** [regions.forEach(region => region.setAttribute('hidden', ''))] and
    [regions.forEach(region => region.removeAttribute('hidden'))]. *)
Definition hide_all (l : list nat) (s : dom) : dom :=
  fold_left (fun s r => put_attr r "hidden" "" s) l s.

Definition show_all (l : list nat) (s : dom) : dom :=
  fold_left (fun s r => del_attr r "hidden" s) l s.

(** The first descendant of [el] with the control class. *)
Definition control_of (document : node) (s : dom) (el : nat) : option nat :=
  first_with (fun e => classList_contains s e COLLAPSIBLE_CONTROL_CLASS)
             (descendants document el).

(** [if (!h.hasAttribute(a)) h.setAttribute(a, v)] as a state change. *)
Definition default_attr (h : nat) (a v : string) (s : dom) : dom :=
  if bool_decide (is_Some (attr s h a)) then s else put_attr h a v s.

(** The state [initControl] leaves when the control is [c]. *)
Definition after_initControl (document : node) (c : nat) (s : dom) : dom :=
  let s := default_attr c "aria-expanded" "false" s in
  let s := if negb (String.eqb (Js.toLowerCase (nodeName document c)) "button")
           then put_attr c "role" "button" s else s in
  default_attr c "tabindex" "0" s.

(** The steps of [addRegionElement] as state changes. *)
Definition bump (s : dom) : dom := Dom (attrs s) (S (drawn s)).

Definition with_id (randomString : nat -> string) (r : nat) (s : dom) : dom :=
  if bool_decide (is_Some (attr s r "id")) then s
  else put_attr r "id" ("region-" +:+ randomString (drawn s)) (bump s).

Definition add_class (h : nat) (c : string) (s : dom) : dom :=
  let ts := classList s h in
  put_attr h "class" (Js.join (if mem c ts then ts else ts ++ [c])) s.

Definition shown_or_hidden (v : string) (r : nat) (s : dom) : dom :=
  if String.eqb (Js.toLowerCase v) "false" then put_attr r "hidden" "" s
  else del_attr r "hidden" s.

(** The region [r] after every step of [addRegionElement] but the last,
    when the control's [aria-expanded] is [v]. *)
Definition prepared (randomString : nat -> string) (r : nat) (v : string)
    (s : dom) : dom :=
  default_attr r "tabindex" "-1"
    (shown_or_hidden v r
       (put_attr r "role" "region"
          (add_class r COLLAPSIBLE_REGION_CLASS (with_id randomString r s)))).

(** [addRegionId] as a state change. *)
Definition add_id (c : nat) (id : string) (s : dom) : dom :=
  if negb (Js.truthy (Js.find id (listed s c)))
  then put_attr c "aria-controls" (Js.join (listed s c ++ [id])) s
  else s.

(** The state [addRegionElement(r)] leaves, for a control [c] whose
    [aria-expanded] is [v]. *)
Definition added (randomString : nat -> string) (c r : nat) (v : string)
    (s : dom) : dom :=
  let s' := prepared randomString r v s in
  add_id c (id_of s' r) s'.

(** The longest prefix of [l] without an element at which [stop] holds. *)
Fixpoint before_first (stop : nat -> bool) (l : list nat) : list nat :=
  match l with
  | [] => []
  | x :: r => if stop x then [] else x :: before_first stop r
  end.

Definition is_region (s : dom) (r : nat) : bool :=
  classList_contains s r COLLAPSIBLE_REGION_CLASS.

Definition is_collapsible (s : dom) (r : nat) : bool :=
  classList_contains s r JS_COLLAPSIBLE.

(** The siblings the walk of [initRegions] collects: it ends at the first
    sibling that is a collapsible and not a region. *)
Definition discovered (s : dom) (siblings : list nat) : list nat :=
  List.filter (is_region s)
    (before_first (fun r => is_collapsible s r && negb (is_region s r)) siblings).

(** The walk in the words of the specification: the regions met before the
    first sibling with class [mdlext-js-collapsible], where the walk stops. *)
Definition discovered_as_specified (s : dom) (siblings : list nat) : list nat :=
  List.filter (is_region s) (before_first (is_collapsible s) siblings).

(** [regions.forEach(region => this.addRegionElement(region))] as a state
    change, for a control [c] whose [aria-expanded] is [v]. *)
Definition add_all (randomString : nat -> string) (c : nat) (v : string)
    (regions : list nat) (s : dom) : dom :=
  fold_left (fun s r => added randomString c r v s) regions s.

(** What [new Collapsible(el)] does, case by case. *)
Definition constructed (document : node) (randomString : nat -> string)
    (el : nat) (s : dom) : completion Collapsible * dom :=
  match control_of document s el with
  | None => (Throw (Error missing_control_message), s)
  | Some c =>
      let this := MkCollapsible el (Some c) in
      let v := default "false" (attr s c "aria-expanded") in
      let s1 := after_initControl document c s in
      match attr s c "aria-controls" with
      | None =>
          (Normal this,
           add_all randomString c v
             (discovered s (nextElementSiblings document el)) s1)
      | Some _ =>
          match first_bad (listed s c) with
          | None =>
              (Normal this,
               add_all randomString c v (regions_of document s c) s1)
          | Some id => (Throw (selector_failure id), s1)
          end
      end
  end.

(** ** The component over time *)

(** The control exists and carries [aria-expanded]. *)
Definition initialized (this : Collapsible) (s : dom) : Prop :=
  exists c, controlElement this = Some c /\ is_Some (attr s c "aria-expanded").

(** The operations a client can run on a constructed component. *)
Inductive operation : Type :=
| Expand
| Collapse
| Toggle
| AddRegionElement (region : option nat)
| RemoveRegionElement (region : option nat)
| AddRegionElements (elements : list (option nat))
| RemoveRegionElements (elements : list (option nat)).

Definition perform (document : node) (randomString : nat -> string)
    (this : Collapsible) (op : operation) : M unit :=
  match op with
  | Expand => expand document this
  | Collapse => collapse document this
  | Toggle => toggle document this
  | AddRegionElement r => addRegionElement randomString this r
  | RemoveRegionElement r => removeRegionElement this r
  | AddRegionElements l => forEach (addRegionElement randomString this) l
  | RemoveRegionElements l => forEach (removeRegionElement this) l
  end.

(** The states a component goes through: the one its constructor leaves
    when it completes, and the one any operation leaves, however it
    completes. *)
Inductive reachable (document : node) (randomString : nat -> string)
    (el : nat) (s0 : dom) (this : Collapsible) : dom -> Prop :=
| reach_new s :
    new_Collapsible document randomString el s0 = (Normal this, s) ->
    reachable document randomString el s0 this s
| reach_perform s op :
    reachable document randomString el s0 this s ->
    reachable document randomString el s0 this
      (snd (perform document randomString this op s)).

(** Every value of attribute [a] in [s] is still there in [s']. *)
Definition kept (a : string) (s s' : dom) : Prop :=
  forall h v, attr s h a = Some v -> attr s' h a = Some v.


(** The regions [new Collapsible(el)] passes to [addRegionElement] when the
    control is [c]. *)
Definition initial_regions (document : node) (el c : nat) (s : dom) : list nat :=
  match attr s c "aria-controls" with
  | None => discovered s (nextElementSiblings document el)
  | Some _ => regions_of document s c
  end.

(** ** Normal forms *)

Definition space_free (w : string) : Prop := Js.has_char Js.is_space w = false.


(** A class token: not empty and free of white space. *)
Definition token (w : string) : Prop :=
  w <> "" /\ Js.has_char is_ascii_whitespace w = false.

(** An id that [addRegionId] lists and finds again: not empty and free of
    spaces. *)
Definition good_id (id : string) : Prop := id <> "" /\ space_free id.

(** The region [r] is as [addRegionElement] leaves it, for a control [c]
    whose [aria-expanded] is [v]. *)
Definition settled_region (c : nat) (v : string) (r : nat) (s : dom) : Prop :=
  (exists id, attr s r "id" = Some id /\ id <> "" /\ In id (listed s c)) /\
  (exists ts, attr s r "class" = Some (Js.join ts) /\
              Forall token ts /\ List.NoDup ts /\
              In COLLAPSIBLE_REGION_CLASS ts) /\
  attr s r "role" = Some "region" /\
  attr s r "hidden"
    = (if String.eqb (Js.toLowerCase v) "false" then Some "" else None) /\
  is_Some (attr s r "tabindex").

(** [s'] has the attributes of [s], except perhaps the [role] of [r]. *)
Definition agree_except_role (r : nat) (s s' : dom) : Prop :=
  forall h a, h <> r \/ a <> "role" -> attr s h a = attr s' h a.

(** The sixth claim read literally: a second [init()] on state [s], and a
    second [addRegionElement(r)] after a first one from state [s], change no
    attribute. *)
Definition init_idempotent (document : node) (randomString : nat -> string)
    (this : Collapsible) (s : dom) : Prop :=
  same_attributes s (snd (init document randomString this s)).

Definition addRegionElement_idempotent (randomString : nat -> string)
    (this : Collapsible) (r : nat) (s : dom) : Prop :=
  let s1 := snd (addRegionElement randomString this (Some r) s) in
  same_attributes s1 (snd (addRegionElement randomString this (Some r) s1)).


(** The first claim read literally, at one component and state: after
    [expand()] the control says ['true'] and no region whose listed id
    resolves is hidden; after [collapse()] the control says ['false'] and
    every such region is hidden. *)
Definition expand_in_sync (document : node) (this : Collapsible) (c : nat)
    (s : dom) : Prop :=
  let s' := snd (expand document this s) in
  attr s' c "aria-expanded" = Some "true" /\
  forall id r,
    In id (listed s c) ->
    document_querySelector document ("#" +:+ id) s = (Normal (Some r), s) ->
    attr s' r "hidden" = None.

Definition collapse_in_sync (document : node) (this : Collapsible) (c : nat)
    (s : dom) : Prop :=
  let s' := snd (collapse document this s) in
  attr s' c "aria-expanded" = Some "false" /\
  forall id r,
    In id (listed s c) ->
    document_querySelector document ("#" +:+ id) s = (Normal (Some r), s) ->
    attr s' r "hidden" = Some "".

(** The attributes [addRegionElement] writes on a region, and those
    [initControl] and [addRegionId] write on the control. *)
Definition region_attributes : list string :=
  ["id"; "class"; "role"; "hidden"; "tabindex"].


(** A widget that was constructed on [null]. *)
Definition null_widget : MaterialExtCollapsible := MkWidget None None.

(** * Pages used to run the component on concrete inputs *)

Module Fixture.

Definition mk_dom (l : list (nat * list (string * string))) : dom :=
  Dom (list_to_map (List.map (fun e => (fst e, list_to_map (snd e))) l)) 0.

(** The only import the pages need a value for. *)
Definition randomString (n : nat) : string := "r".
Definition IS_UPGRADED : string := "is-upgraded".

(** [<body> <div#1.js> <button#2.control/> </div> <div#3/> <div#4/> </body>] *)
Definition page : node :=
  Element 0 "BODY"
    [ Element 1 "DIV" [ Element 2 "BUTTON" [] ];
      Element 3 "DIV" [];
      Element 4 "DIV" [] ].

Definition component : Collapsible := MkCollapsible 1 (Some 2).

(** The markup of the test fixture with two regions given by
    [aria-controls]. *)
Definition two_controlled : dom :=
  mk_dom [ (1, [("class", JS_COLLAPSIBLE)]);
           (2, [("class", COLLAPSIBLE_CONTROL_CLASS);
                ("aria-expanded", "true");
                ("aria-controls", "region-1 region-2")]);
           (3, [("id", "region-1"); ("class", COLLAPSIBLE_REGION_CLASS)]);
           (4, [("id", "region-2"); ("class", COLLAPSIBLE_REGION_CLASS)]) ].

(** A control whose [aria-controls] is present and empty. *)
Definition empty_controls : dom :=
  mk_dom [ (1, [("class", JS_COLLAPSIBLE)]);
           (2, [("class", COLLAPSIBLE_CONTROL_CLASS);
                ("aria-expanded", "false");
                ("aria-controls", "")]);
           (3, [("id", "")]) ].

Definition widget : MaterialExtCollapsible := MkWidget (Some 1) (Some component).

(** No [aria-controls], no sibling region, and an element whose [id]
    attribute is present and empty. *)
Definition empty_id : dom :=
  mk_dom [ (1, [("class", JS_COLLAPSIBLE)]);
           (2, [("class", COLLAPSIBLE_CONTROL_CLASS)]);
           (3, [("id", "")]) ].

(** Two sibling regions, the second with a numeric id. *)
Definition numeric_id : dom :=
  mk_dom [ (1, [("class", JS_COLLAPSIBLE)]);
           (2, [("class", COLLAPSIBLE_CONTROL_CLASS)]);
           (3, [("id", "intro"); ("class", COLLAPSIBLE_REGION_CLASS)]);
           (4, [("id", "2"); ("class", COLLAPSIBLE_REGION_CLASS)]) ].

(** [<body> <div#1.js> <a#2.control/> </div> <div#3/> </body>]: the control
    is a link. *)
Definition page_with_link : node :=
  Element 0 "BODY"
    [ Element 1 "DIV" [ Element 2 "A" [] ];
      Element 3 "DIV" [] ].

(** The author gave the control, the region and the component roles,
    tabindexes and an id of their own. *)
Definition author_role : dom :=
  mk_dom [ (1, [("class", JS_COLLAPSIBLE)]);
           (2, [("class", COLLAPSIBLE_CONTROL_CLASS); ("role", "link");
                ("tabindex", "5")]);
           (3, [("id", "panel"); ("role", "tabpanel"); ("tabindex", "0");
                ("class", COLLAPSIBLE_REGION_CLASS)]) ].

(** [<body> <div#5/> <div#1.js> <button#2.control/> </div> <div#3/> </body>],
    where the element before the component has the id of the region. *)
Definition page_with_leading_div : node :=
  Element 0 "BODY"
    [ Element 5 "DIV" [];
      Element 1 "DIV" [ Element 2 "BUTTON" [] ];
      Element 3 "DIV" [] ].

Definition duplicate_id : dom :=
  mk_dom [ (5, [("id", "panel")]);
           (1, [("class", JS_COLLAPSIBLE)]);
           (2, [("class", COLLAPSIBLE_CONTROL_CLASS)]);
           (3, [("id", "panel"); ("class", COLLAPSIBLE_REGION_CLASS)]) ].

(** An element whose id holds a space, next to an expanded control. *)
Definition spaced_id : dom :=
  mk_dom [ (1, [("class", JS_COLLAPSIBLE)]);
           (2, [("class", COLLAPSIBLE_CONTROL_CLASS); ("aria-expanded", "true")]);
           (3, [("id", "my region")]) ].


(** The first sibling is a region that is itself a collapsible; a second
    region follows it. *)
Definition nested : dom :=
  mk_dom [ (1, [("class", JS_COLLAPSIBLE)]);
           (2, [("class", COLLAPSIBLE_CONTROL_CLASS)]);
           (3, [("class", "mdlext-collapsible-region mdlext-js-collapsible")]);
           (4, [("class", COLLAPSIBLE_REGION_CLASS)]) ].

End Fixture.
(** * Properties *)

(** ** Strings: [split] and [join] *)

Lemma split_on_not_nil p s : Js.split_on p s <> [].
Proof.
  destruct s as [|c r]; simpl; [discriminate|].
  destruct (p c); [discriminate|].
  destruct (Js.split_on p r); discriminate.
Qed.

Lemma split_on_pieces p s w :
  In w (Js.split_on p s) -> Js.has_char p w = false.
Proof.
  revert w. induction s as [|c r IH]; simpl; intros w Hw.
  - destruct Hw as [<-|[]]. reflexivity.
  - destruct (p c) eqn:Hc.
    + destruct Hw as [<-|Hw]; [reflexivity | auto].
    + destruct (Js.split_on p r) as [|x xs] eqn:Hr.
      * destruct Hw as [<-|[]]. simpl. now rewrite Hc.
      * destruct Hw as [<-|Hw].
        -- simpl. rewrite Hc. apply IH. now left.
        -- apply IH. now right.
Qed.

Lemma split_on_whole p w :
  Js.has_char p w = false -> Js.split_on p w = [w].
Proof.
  induction w as [|c r IH]; simpl; [reflexivity|].
  intros H. apply orb_false_iff in H as [Hc Hr].
  rewrite Hc, (IH Hr). reflexivity.
Qed.

Lemma split_on_app p w c t :
  Js.has_char p w = false -> p c = true ->
  Js.split_on p (w +:+ String c t) = w :: Js.split_on p t.
Proof.
  intros Hw Hc. induction w as [|d r IH]; simpl.
  - now rewrite Hc.
  - simpl in Hw. apply orb_false_iff in Hw as [Hd Hr].
    rewrite Hd, (IH Hr). reflexivity.
Qed.

Lemma split_join l :
  l <> [] -> Forall space_free l -> Js.split (Js.join l) = l.
Proof.
  induction l as [|x r IH]; [congruence|].
  intros _ Hall. inversion Hall as [|? ? Hx Hr]; subst.
  destruct r as [|y r'].
  - simpl. now apply split_on_whole.
  - change (Js.join (x :: y :: r')) with (x +:+ String " " (Js.join (y :: r'))).
    unfold Js.split. rewrite split_on_app by (assumption || reflexivity).
    f_equal. apply IH; [discriminate | assumption].
Qed.

Lemma join_split s : Js.join (Js.split s) = s.
Proof.
  unfold Js.split. induction s as [|c r IH]; [reflexivity|].
  simpl. destruct (Js.is_space c) eqn:Hc.
  - apply Ascii.eqb_eq in Hc. subst c.
    pose proof (split_on_not_nil Js.is_space r) as Hn.
    destruct (Js.split_on Js.is_space r) as [|x xs]; [congruence|].
    change (Js.join ("" :: x :: xs)) with (String " " (Js.join (x :: xs))).
    now rewrite IH.
  - pose proof (split_on_not_nil Js.is_space r) as Hn.
    destruct (Js.split_on Js.is_space r) as [|x xs]; [congruence|].
    destruct xs as [|y ys]; simpl in *; now rewrite <- IH.
Qed.

Lemma split_pieces_space_free v : Forall space_free (Js.split v).
Proof.
  apply List.Forall_forall. intros w Hw. exact (split_on_pieces _ _ _ Hw).
Qed.

(** [ids.find(id => regionId === id)] answers [regionId] itself when it is
    a member, and [undefined] otherwise. *)
Lemma find_spec v l :
  Js.find v l = if mem v l then Some v else None.
Proof.
  unfold Js.find, mem. induction l as [|x r IH]; simpl; [reflexivity|].
  destruct (String.eqb v x) eqn:E; simpl; [|exact IH].
  apply String.eqb_eq in E. now subst.
Qed.

Lemma mem_In v l : mem v l = true <-> In v l.
Proof.
  unfold mem. rewrite existsb_exists. split.
  - intros (x & Hx & E). apply String.eqb_eq in E. now subst.
  - intros H. exists v. split; [assumption | apply String.eqb_refl].
Qed.

Lemma mem_false_In v l : mem v l = false <-> ~ In v l.
Proof.
  rewrite <- mem_In. destruct (mem v l); split; congruence.
Qed.

(** ** Attribute reads after writes *)

Lemma attr_put_eq h a v s : attr (put_attr h a v s) h a = Some v.
Proof.
  unfold attr, attributes, put_attr. simpl.
  rewrite lookup_insert_eq. simpl. apply lookup_insert_eq.
Qed.

Lemma attr_put_ne h a v s h' a' :
  h <> h' \/ a <> a' -> attr (put_attr h a v s) h' a' = attr s h' a'.
Proof.
  intros H. unfold attr, attributes, put_attr. simpl.
  destruct (decide (h = h')) as [<-|Hh].
  - rewrite lookup_insert_eq. simpl. destruct H as [H|H]; [congruence|].
    now rewrite lookup_insert_ne.
  - now rewrite lookup_insert_ne.
Qed.

Lemma attr_del_eq h a s : attr (del_attr h a s) h a = None.
Proof.
  unfold attr, attributes, del_attr. simpl.
  rewrite lookup_insert_eq. simpl. apply lookup_delete_eq.
Qed.

Lemma attr_del_ne h a s h' a' :
  h <> h' \/ a <> a' -> attr (del_attr h a s) h' a' = attr s h' a'.
Proof.
  intros H. unfold attr, attributes, del_attr. simpl.
  destruct (decide (h = h')) as [<-|Hh].
  - rewrite lookup_insert_eq. simpl. destruct H as [H|H]; [congruence|].
    now rewrite lookup_delete_ne.
  - now rewrite lookup_insert_ne.
Qed.

Lemma attr_put h a v s h' a' :
  attr (put_attr h a v s) h' a' =
  if decide (h = h' /\ a = a') then Some v else attr s h' a'.
Proof.
  case_decide as H.
  - destruct H as [<- <-]. apply attr_put_eq.
  - apply attr_put_ne. destruct (decide (h = h')); [right|left]; naive_solver.
Qed.

Lemma attr_del h a s h' a' :
  attr (del_attr h a s) h' a' =
  if decide (h = h' /\ a = a') then None else attr s h' a'.
Proof.
  case_decide as H.
  - destruct H as [<- <-]. apply attr_del_eq.
  - apply attr_del_ne. destruct (decide (h = h')); [right|left]; naive_solver.
Qed.

Lemma same_attributes_refl s : same_attributes s s.
Proof. intros h a. reflexivity. Qed.

Lemma same_attributes_trans s1 s2 s3 :
  same_attributes s1 s2 -> same_attributes s2 s3 -> same_attributes s1 s3.
Proof. intros H1 H2 h a. now rewrite H1. Qed.

Lemma put_attr_same h a v s :
  attr s h a = Some v -> same_attributes s (put_attr h a v s).
Proof.
  intros H h' a'. rewrite attr_put. case_decide as E; [|reflexivity].
  destruct E as [<- <-]. exact H.
Qed.

Lemma del_attr_same h a s :
  attr s h a = None -> same_attributes s (del_attr h a s).
Proof.
  intros H h' a'. rewrite attr_del. case_decide as E; [|reflexivity].
  destruct E as [<- <-]. exact H.
Qed.

(** ** The region association *)

Lemma regionIds_eq this c s :
  controlElement this = Some c ->
  regionIds this s = (Normal (listed s c), s).
Proof.
  intros Hc. unfold regionIds, listed, bind, hasAttribute, getAttribute, gets.
  rewrite Hc. simpl.
  destruct (attr s c "aria-controls") as [v|] eqn:Hv.
  - rewrite bool_decide_eq_true_2 by eauto. simpl. now rewrite Hv.
  - rewrite bool_decide_eq_false_2 by (intros [? ?]; discriminate). reflexivity.
Qed.

Lemma regionIds_null this s :
  controlElement this = None -> regionIds this s = (Throw TypeError, s).
Proof. intros Hc. unfold regionIds, bind. now rewrite Hc. Qed.

Lemma addRegionId_eq this c id s :
  controlElement this = Some c ->
  addRegionId this id s =
  if negb (Js.truthy (Js.find id (listed s c)))
  then (Normal tt, put_attr c "aria-controls" (Js.join (listed s c ++ [id])) s)
  else (Normal tt, s).
Proof.
  intros Hc. unfold addRegionId, bind. rewrite (regionIds_eq _ _ _ Hc).
  destruct (negb _); [|reflexivity]. now rewrite Hc.
Qed.

(** A non-empty id is pushed exactly when it is not listed. *)
Lemma addRegionId_nonempty this c id s :
  controlElement this = Some c -> id <> "" ->
  addRegionId this id s =
  if mem id (listed s c) then (Normal tt, s)
  else (Normal tt, put_attr c "aria-controls" (Js.join (listed s c ++ [id])) s).
Proof.
  intros Hc Hid. rewrite (addRegionId_eq _ _ _ _ Hc), find_spec.
  destruct (mem id (listed s c)); simpl; [|reflexivity].
  destruct id; [congruence | reflexivity].
Qed.

Lemma removeRegionElement_eq this c r s :
  controlElement this = Some c ->
  removeRegionElement this (Some r) s =
  if nonempty (id_of s r)
  then (Normal tt,
        put_attr c "aria-controls"
          (Js.join (List.filter (fun id => String.eqb id (id_of s r)) (listed s c))) s)
  else (Normal tt, s).
Proof.
  intros Hc. unfold removeRegionElement, bind, get_id, gets.
  destruct (nonempty (id_of s r)); [|reflexivity].
  rewrite (regionIds_eq _ _ _ Hc), Hc. reflexivity.
Qed.

Lemma toggle_eq document this c v s :
  controlElement this = Some c ->
  attr s c "aria-expanded" = Some v ->
  toggle document this s =
  if String.eqb (Js.toLowerCase v) "false" then expand document this s
  else collapse document this s.
Proof.
  intros Hc Hv. unfold toggle, bind, getAttribute, gets.
  rewrite Hc. simpl. rewrite Hv. unfold deref, ret.
  now destruct (String.eqb (Js.toLowerCase v) "false").
Qed.

Lemma toggle_null_attribute document this c s :
  controlElement this = Some c ->
  attr s c "aria-expanded" = None ->
  toggle document this s = (Throw TypeError, s).
Proof.
  intros Hc Hv. unfold toggle, bind, getAttribute, gets.
  rewrite Hc. simpl. rewrite Hv. reflexivity.
Qed.

(** ** Running a sequence *)

Lemma bind_normal {A B} (m : M A) (k : A -> M B) s a s' :
  m s = (Normal a, s') -> bind m k s = k a s'.
Proof. intros H. unfold bind. now rewrite H. Qed.

Lemma bind_throw {A B} (m : M A) (k : A -> M B) s e s' :
  m s = (Throw e, s') -> bind m k s = (Throw e, s').
Proof. intros H. unfold bind. now rewrite H. Qed.

(** Run the first call of a sequence, given by [tac] how it completes. *)
Ltac run_with tac :=
  match goal with
  | |- bind ?m ?k ?s = _ =>
      let H := fresh in
      eassert (H : m s = (Normal _, _)) by tac;
      rewrite (bind_normal m k s _ _ H); clear H; cbv beta
  end.

(** ** Methods as state changes *)

Lemma guarded_set_eq h a v s :
  (if negb (bool_decide (is_Some (attr s h a)))
   then setAttribute h a v else ret tt) s
  = (Normal tt, default_attr h a v s).
Proof.
  unfold default_attr.
  destruct (bool_decide (is_Some (attr s h a))); reflexivity.
Qed.

Lemma guarded_id_eq rs r s :
  (if negb (bool_decide (is_Some (attr s r "id")))
   then bind (random rs) (fun n => set_id r ("region-" +:+ n))
   else ret tt) s
  = (Normal tt, with_id rs r s).
Proof.
  unfold with_id.
  destruct (bool_decide (is_Some (attr s r "id"))); reflexivity.
Qed.

Lemma classList_add_region_eq h s :
  classList_add h COLLAPSIBLE_REGION_CLASS s
  = (Normal tt, add_class h COLLAPSIBLE_REGION_CLASS s).
Proof. reflexivity. Qed.

Lemma attr_default_attr h a v s h' a' :
  attr (default_attr h a v s) h' a' =
  if decide (h = h' /\ a = a')
  then Some (default v (attr s h a)) else attr s h' a'.
Proof.
  unfold default_attr. case_bool_decide as Hp.
  - case_decide as E; [|reflexivity]. destruct E as [<- <-].
    destruct Hp as [w Hw]. now rewrite Hw.
  - rewrite attr_put. case_decide as E; [|reflexivity]. destruct E as [<- <-].
    destruct (attr s h a) eqn:Hw; [exfalso; eauto | reflexivity].
Qed.

Lemma attr_bump s h a : attr (bump s) h a = attr s h a.
Proof. reflexivity. Qed.

Lemma attr_with_id rs r s h a :
  attr (with_id rs r s) h a =
  if decide (r = h /\ "id" = a)
  then Some (default ("region-" +:+ rs (drawn s)) (attr s r "id"))
  else attr s h a.
Proof.
  unfold with_id. case_bool_decide as Hp.
  - case_decide as E; [|reflexivity]. destruct E as [<- <-].
    destruct Hp as [w Hw]. now rewrite Hw.
  - rewrite attr_put, attr_bump. case_decide as E; [|reflexivity].
    destruct E as [<- <-].
    destruct (attr s r "id") eqn:Hw; [exfalso; eauto | reflexivity].
Qed.

Lemma attr_add_class_other h c s h' a' :
  h <> h' \/ "class" <> a' -> attr (add_class h c s) h' a' = attr s h' a'.
Proof. intros H. unfold add_class. now apply attr_put_ne. Qed.

Lemma attr_shown_or_hidden_other v r s h a :
  r <> h \/ "hidden" <> a -> attr (shown_or_hidden v r s) h a = attr s h a.
Proof.
  intros H. unfold shown_or_hidden.
  destruct (String.eqb _ _); [now apply attr_put_ne | now apply attr_del_ne].
Qed.

Lemma attr_prepared_other rs r v s h a :
  a <> "id" -> a <> "class" -> a <> "role" -> a <> "hidden" -> a <> "tabindex" ->
  attr (prepared rs r v s) h a = attr s h a.
Proof.
  intros H1 H2 H3 H4 H5. unfold prepared.
  rewrite attr_default_attr. case_decide as E; [destruct E; congruence|].
  rewrite attr_shown_or_hidden_other by (right; congruence).
  rewrite attr_put_ne by (right; congruence).
  rewrite attr_add_class_other by (right; congruence).
  rewrite attr_with_id. case_decide as E'; [destruct E'; congruence | reflexivity].
Qed.

Lemma addRegionId_add_id this c id s :
  controlElement this = Some c ->
  addRegionId this id s = (Normal tt, add_id c id s).
Proof.
  intros Hc. rewrite (addRegionId_eq _ _ _ _ Hc). unfold add_id.
  now destruct (negb _).
Qed.

Lemma addRegionElement_eq rs this c r v s :
  controlElement this = Some c ->
  attr s c "aria-expanded" = Some v ->
  addRegionElement rs this (Some r) s = (Normal tt, added rs c r v s).
Proof.
  intros Hc Hv. unfold addRegionElement.
  run_with ltac:(reflexivity).
  run_with ltac:(reflexivity).
  run_with ltac:(apply guarded_id_eq).
  run_with ltac:(apply classList_add_region_eq).
  run_with ltac:(reflexivity).
  rewrite Hc. run_with ltac:(reflexivity).
  set (s3 := put_attr r "role" "region" _).
  assert (Hv3 : attr s3 c "aria-expanded" = Some v).
  { unfold s3. rewrite attr_put_ne by (right; discriminate).
    rewrite attr_add_class_other by (right; discriminate).
    rewrite attr_with_id. case_decide as E; [destruct E; discriminate | exact Hv]. }
  run_with ltac:(unfold getAttribute, gets; rewrite Hv3; reflexivity).
  run_with ltac:(reflexivity).
  assert (Hsh : (if String.eqb (Js.toLowerCase v) "false"
                 then setAttribute r "hidden" ""
                 else removeAttribute r "hidden") s3
                = (Normal tt, shown_or_hidden v r s3)).
  { unfold shown_or_hidden. now destruct (String.eqb _ _). }
  run_with ltac:(apply Hsh).
  run_with ltac:(reflexivity).
  run_with ltac:(apply guarded_set_eq).
  run_with ltac:(reflexivity).
  rewrite (addRegionId_add_id _ _ _ _ Hc). reflexivity.
Qed.

Lemma addRegionElement_null rs this s :
  addRegionElement rs this None s = (Throw TypeError, s).
Proof. reflexivity. Qed.

Lemma initControl_eq document this s :
  initControl document this s =
  match control_of document s (element this) with
  | Some c => (Normal (MkCollapsible (element_ this) (Some c)),
               after_initControl document c s)
  | None => (Throw (Error missing_control_message), s)
  end.
Proof.
  unfold initControl.
  run_with ltac:(change (element_querySelector document (element this)
                           ("." +:+ COLLAPSIBLE_CONTROL_CLASS) s)
                   with (Normal (control_of document s (element this)), s);
                 reflexivity).
  destruct (control_of document s (element this)) as [c|]; [|reflexivity].
  cbn [controlElement controlElement_].
  run_with ltac:(reflexivity).
  run_with ltac:(apply guarded_set_eq).
  unfold after_initControl.
  set (s1 := default_attr c "aria-expanded" "false" s).
  destruct (negb (String.eqb (Js.toLowerCase (nodeName document c)) "button")).
  - run_with ltac:(reflexivity). run_with ltac:(reflexivity).
    run_with ltac:(apply guarded_set_eq). reflexivity.
  - run_with ltac:(reflexivity). run_with ltac:(reflexivity).
    run_with ltac:(apply guarded_set_eq). reflexivity.
Qed.

Lemma walk_eq s rs acc : walk s rs acc = acc ++ discovered s rs.
Proof.
  unfold discovered. revert acc. induction rs as [|r rest IH]; intros acc; simpl.
  - now rewrite app_nil_r.
  - fold (is_region s r). fold (is_collapsible s r).
    destruct (is_region s r) eqn:Hr; simpl.
    + rewrite andb_false_r. simpl. rewrite Hr. rewrite IH, <- app_assoc. reflexivity.
    + rewrite andb_true_r. destruct (is_collapsible s r); simpl.
      * now rewrite app_nil_r.
      * rewrite Hr. apply IH.
Qed.

(** ** Resolving the listed ids *)

Lemma document_querySelector_id document id s :
  document_querySelector document ("#" +:+ id) s =
  if is_identifier id then (Normal (by_id document s id), s)
  else (Throw (selector_failure id), s).
Proof.
  unfold is_identifier, selector_failure.
  change ("#" +:+ id) with (String "#" id). unfold document_querySelector.
  destruct (classify id); reflexivity.
Qed.

Lemma omap_id_map {A B} (f : A -> option B) (l : list A) :
  omap (fun el => el) (List.map f l) = omap f l.
Proof.
  induction l as [|x r IH]; [reflexivity|]. simpl.
  destruct (f x); simpl; [f_equal|]; exact IH.
Qed.

Lemma omap_cons {A B} (f : A -> option B) x (l : list A) :
  omap f (x :: l) = match f x with Some y => y :: omap f l | None => omap f l end.
Proof. reflexivity. Qed.

Lemma omap_ext_in {A B} (f g : A -> option B) (l : list A) :
  (forall x, f x = g x) -> omap f l = omap g l.
Proof.
  intros H. induction l as [|x r IH]; [reflexivity|].
  rewrite !omap_cons, H, IH. reflexivity.
Qed.

Lemma mapM_querySelector document ids s :
  mapM (fun id => document_querySelector document ("#" +:+ id)) ids s =
  match first_bad ids with
  | None => (Normal (List.map (by_id document s) ids), s)
  | Some id => (Throw (selector_failure id), s)
  end.
Proof.
  unfold first_bad. induction ids as [|id r IH]; [reflexivity|].
  cbn [mapM List.find]. destruct (is_identifier id) eqn:E; cbn [negb].
  - erewrite bind_normal
      by (rewrite document_querySelector_id, E; reflexivity).
    unfold bind. rewrite IH. destruct (List.find _ r); reflexivity.
  - erewrite bind_throw
      by (rewrite document_querySelector_id, E; reflexivity).
    reflexivity.
Qed.

Lemma regionElements_eq document this c s :
  controlElement this = Some c ->
  regionElements document this s =
  match first_bad (listed s c) with
  | None => (Normal (regions_of document s c), s)
  | Some id => (Throw (selector_failure id), s)
  end.
Proof.
  intros Hc. unfold regionElements.
  run_with ltac:(apply (regionIds_eq _ _ _ Hc)).
  unfold bind. rewrite mapM_querySelector.
  destruct (first_bad (listed s c)); [reflexivity|].
  unfold ret, regions_of. now rewrite omap_id_map.
Qed.

Lemma first_bad_none ids :
  first_bad ids = None <-> Forall (fun id => classify id = Identifier) ids.
Proof.
  unfold first_bad. rewrite List.Forall_forall. split.
  - intros H id Hin. pose proof (find_none _ _ H id Hin) as Hb.
    unfold is_identifier in Hb. now destruct (classify id).
  - intros H. destruct (List.find _ ids) as [id|] eqn:E; [|reflexivity].
    apply find_some in E as [Hin Hb]. unfold is_identifier in Hb.
    rewrite (H id Hin) in Hb. discriminate.
Qed.


Lemma first_with_ext (p q : nat -> bool) l :
  (forall h, p h = q h) -> first_with p l = first_with q l.
Proof.
  intros H. unfold first_with. f_equal.
  induction l as [|x r IH]; [reflexivity|]. simpl. rewrite H, IH. reflexivity.
Qed.

Lemma by_id_ext document s s' id :
  (forall h, attr s h "id" = attr s' h "id") ->
  by_id document s id = by_id document s' id.
Proof.
  intros H. apply first_with_ext. intros h. unfold has_id. now rewrite H.
Qed.

Lemma regions_of_ext document s s' c :
  (forall h, attr s h "id" = attr s' h "id") ->
  attr s c "aria-controls" = attr s' c "aria-controls" ->
  regions_of document s c = regions_of document s' c.
Proof.
  intros Hid Hc. unfold regions_of, listed. rewrite Hc.
  apply omap_ext_in. intros id. now apply by_id_ext.
Qed.

Lemma listed_ext s s' c :
  attr s c "aria-controls" = attr s' c "aria-controls" ->
  listed s c = listed s' c.
Proof. intros H. unfold listed. now rewrite H. Qed.


Lemma in_regions_of document s c r :
  In r (regions_of document s c) <->
  exists id, In id (listed s c) /\ by_id document s id = Some r.
Proof.
  unfold regions_of. generalize (listed s c) as l.
  induction l as [|x l IH].
  - simpl. split; [intros [] | intros (? & [] & _)].
  - rewrite omap_cons.
    destruct (by_id document s x) as [h|] eqn:E; simpl; rewrite IH.
    + split.
      * intros [<-|(id & Hin & Hr)]; [exists x; auto | exists id; auto].
      * intros (id & [<-|Hin] & Hr); [left; congruence | right; eauto].
    + split.
      * intros (id & Hin & Hr). eauto.
      * intros (id & [<-|Hin] & Hr); [congruence | eauto].
Qed.

(** ** [expand] and [collapse] *)

Lemma forEach_hide l s :
  forEach (fun region => setAttribute region "hidden" "") l s
  = (Normal tt, hide_all l s).
Proof. revert s. induction l as [|r l IH]; intros s; [reflexivity|]. apply IH. Qed.

Lemma forEach_show l s :
  forEach (fun region => removeAttribute region "hidden") l s
  = (Normal tt, show_all l s).
Proof. revert s. induction l as [|r l IH]; intros s; [reflexivity|]. apply IH. Qed.

Lemma attr_hide_all_other l s h a :
  a <> "hidden" \/ ~ In h l -> attr (hide_all l s) h a = attr s h a.
Proof.
  unfold hide_all. revert s. induction l as [|r l IH]; intros s H; [reflexivity|].
  simpl. rewrite IH by (simpl in H; tauto).
  apply attr_put_ne. simpl in H.
  destruct (decide (r = h)); [right; intros E; subst; tauto | now left].
Qed.

Lemma attr_hide_all_in l s h :
  In h l -> attr (hide_all l s) h "hidden" = Some "".
Proof.
  unfold hide_all. revert s. induction l as [|r l IH]; intros s H; [destruct H|].
  simpl. destruct (in_dec Nat.eq_dec h l) as [Hin|Hout]; [now apply IH|].
  destruct H as [->|H]; [|contradiction].
  fold (hide_all l (put_attr h "hidden" "" s)).
  rewrite attr_hide_all_other by now right. apply attr_put_eq.
Qed.

Lemma attr_show_all_other l s h a :
  a <> "hidden" \/ ~ In h l -> attr (show_all l s) h a = attr s h a.
Proof.
  unfold show_all. revert s. induction l as [|r l IH]; intros s H; [reflexivity|].
  simpl. rewrite IH by (simpl in H; tauto).
  apply attr_del_ne. simpl in H.
  destruct (decide (r = h)); [right; intros E; subst; tauto | now left].
Qed.

Lemma attr_show_all_in l s h :
  In h l -> attr (show_all l s) h "hidden" = None.
Proof.
  unfold show_all. revert s. induction l as [|r l IH]; intros s H; [destruct H|].
  simpl. destruct (in_dec Nat.eq_dec h l) as [Hin|Hout]; [now apply IH|].
  destruct H as [->|H]; [|contradiction].
  fold (show_all l (del_attr h "hidden" s)).
  rewrite attr_show_all_other by now right. apply attr_del_eq.
Qed.

Lemma expand_eq document this c s :
  controlElement this = Some c ->
  expand document this s =
  let s1 := put_attr c "aria-expanded" "true" s in
  match first_bad (listed s c) with
  | None => (Normal tt, show_all (regions_of document s c) s1)
  | Some id => (Throw (selector_failure id), s1)
  end.
Proof.
  intros Hc. unfold expand. rewrite Hc.
  run_with ltac:(reflexivity). run_with ltac:(reflexivity).
  unfold bind. rewrite (regionElements_eq _ _ _ _ Hc).
  rewrite (listed_ext (put_attr c "aria-expanded" "true" s) s c)
    by (apply attr_put_ne; right; discriminate).
  cbv zeta. destruct (first_bad (listed s c)); [reflexivity|].
  rewrite (regions_of_ext document (put_attr c "aria-expanded" "true" s) s c)
    by (try intros h; apply attr_put_ne; right; discriminate).
  apply forEach_show.
Qed.

Lemma collapse_eq document this c s :
  controlElement this = Some c ->
  collapse document this s =
  let s1 := put_attr c "aria-expanded" "false" s in
  match first_bad (listed s c) with
  | None => (Normal tt, hide_all (regions_of document s c) s1)
  | Some id => (Throw (selector_failure id), s1)
  end.
Proof.
  intros Hc. unfold collapse. rewrite Hc.
  run_with ltac:(reflexivity). run_with ltac:(reflexivity).
  unfold bind. rewrite (regionElements_eq _ _ _ _ Hc).
  rewrite (listed_ext (put_attr c "aria-expanded" "false" s) s c)
    by (apply attr_put_ne; right; discriminate).
  cbv zeta. destruct (first_bad (listed s c)); [reflexivity|].
  rewrite (regions_of_ext document (put_attr c "aria-expanded" "false" s) s c)
    by (try intros h; apply attr_put_ne; right; discriminate).
  apply forEach_hide.
Qed.

(** ** [init] *)

Lemma classList_ext s s' h :
  attr s h "class" = attr s' h "class" -> classList s h = classList s' h.
Proof. intros H. unfold classList. now rewrite H. Qed.

Lemma attr_after_initControl_other document c s h a :
  a <> "aria-expanded" -> a <> "role" -> a <> "tabindex" ->
  attr (after_initControl document c s) h a = attr s h a.
Proof.
  intros H1 H2 H3. unfold after_initControl. cbv zeta.
  rewrite attr_default_attr. case_decide as E; [destruct E; congruence|].
  destruct (negb _).
  - rewrite attr_put_ne by (right; congruence).
    rewrite attr_default_attr. case_decide as E'; [destruct E'; congruence|].
    reflexivity.
  - rewrite attr_default_attr. case_decide as E'; [destruct E'; congruence|].
    reflexivity.
Qed.

Lemma before_first_ext (p q : nat -> bool) l :
  (forall h, p h = q h) -> before_first p l = before_first q l.
Proof.
  intros H. induction l as [|x r IH]; [reflexivity|].
  cbn [before_first]. rewrite H, IH. reflexivity.
Qed.

Lemma discovered_ext s s' l :
  (forall h, attr s h "class" = attr s' h "class") ->
  discovered s l = discovered s' l.
Proof.
  intros H. unfold discovered.
  assert (Hr : forall h, is_region s h = is_region s' h).
  { intros h. unfold is_region, classList_contains. now rewrite (classList_ext s s' h). }
  assert (Hc : forall h, is_collapsible s h = is_collapsible s' h).
  { intros h. unfold is_collapsible, classList_contains.
    now rewrite (classList_ext s s' h). }
  rewrite (before_first_ext
             (fun r => is_collapsible s r && negb (is_region s r))
             (fun r => is_collapsible s' r && negb (is_region s' r)))
    by (intros h; rewrite (Hr h), (Hc h); reflexivity).
  apply filter_ext. exact Hr.
Qed.

Lemma pair_of_fst {A B} (p : A * B) (a : A) : fst p = a -> p = (a, snd p).
Proof. destruct p. simpl. now intros ->. Qed.

Lemma initRegions_eq document rs this c s :
  controlElement this = Some c ->
  initRegions document rs this s =
  match attr s c "aria-controls" with
  | None =>
      forEach (fun r => addRegionElement rs this (Some r))
              (discovered s (nextElementSiblings document (element this))) s
  | Some _ =>
      match first_bad (listed s c) with
      | None => forEach (fun r => addRegionElement rs this (Some r))
                        (regions_of document s c) s
      | Some id => (Throw (selector_failure id), s)
      end
  end.
Proof.
  intros Hc. unfold initRegions. rewrite Hc.
  run_with ltac:(reflexivity). run_with ltac:(reflexivity).
  destruct (attr s c "aria-controls") as [v|] eqn:Hv.
  - rewrite bool_decide_eq_true_2 by eauto. cbn [negb].
    unfold bind. rewrite (regionElements_eq _ _ _ _ Hc).
    destruct (first_bad (listed s c)); reflexivity.
  - rewrite bool_decide_eq_false_2 by (intros [? ?]; discriminate). cbn [negb].
    run_with ltac:(reflexivity). rewrite walk_eq. reflexivity.
Qed.

Lemma init_eq document rs this s :
  init document rs this s =
  match control_of document s (element this) with
  | None => (Throw (Error missing_control_message), s)
  | Some c =>
      let this' := MkCollapsible (element_ this) (Some c) in
      bind (initRegions document rs this') (fun _ => ret this')
           (after_initControl document c s)
  end.
Proof.
  unfold init. unfold bind at 1. rewrite initControl_eq.
  destruct (control_of document s (element this)); reflexivity.
Qed.

Lemma in_before_first stop l r :
  In r (before_first stop l) <->
  exists before after,
    l = before ++ r :: after /\
    stop r = false /\ forall x, In x before -> stop x = false.
Proof.
  induction l as [|y l IH]; simpl.
  - split; [intros [] | intros (b & a & E & _)]. now destruct b.
  - destruct (stop y) eqn:Hy.
    + split; [intros []|]. intros (b & a & E & Hr & Hb).
      destruct b as [|z b]; simpl in E; injection E as E1 E2; subst.
      * congruence.
      * specialize (Hb z (or_introl eq_refl)). congruence.
    + simpl. rewrite IH. split.
      * intros [<-|(b & a & -> & Hr & Hb)].
        -- exists [], l. repeat split; auto. intros x [].
        -- exists (y :: b), a. repeat split; auto.
           intros x [<-|Hx]; auto.
      * intros (b & a & E & Hr & Hb).
        destruct b as [|z b]; simpl in E; injection E as E1 E2; subst.
        -- now left.
        -- right. exists b, a. repeat split; auto. intros x Hx. apply Hb. now right.
Qed.

Lemma attr_add_id_other c id s h a :
  a <> "aria-controls" -> attr (add_id c id s) h a = attr s h a.
Proof.
  intros H. unfold add_id. destruct (negb _); [|reflexivity].
  apply attr_put_ne. right. congruence.
Qed.

Lemma attr_added_other rs c r v s h a :
  a <> "id" -> a <> "class" -> a <> "role" -> a <> "hidden" ->
  a <> "tabindex" -> a <> "aria-controls" ->
  attr (added rs c r v s) h a = attr s h a.
Proof.
  intros H1 H2 H3 H4 H5 H6. unfold added. cbv zeta.
  rewrite attr_add_id_other by assumption. now apply attr_prepared_other.
Qed.

Lemma attr_add_all_other rs c v l s h a :
  a <> "id" -> a <> "class" -> a <> "role" -> a <> "hidden" ->
  a <> "tabindex" -> a <> "aria-controls" ->
  attr (add_all rs c v l s) h a = attr s h a.
Proof.
  intros H1 H2 H3 H4 H5 H6. unfold add_all. revert s.
  induction l as [|r l IH]; intros s; [reflexivity|].
  simpl. rewrite IH. now apply attr_added_other.
Qed.

Lemma forEach_addRegionElement_eq rs this c v l s :
  controlElement this = Some c ->
  attr s c "aria-expanded" = Some v ->
  forEach (fun r => addRegionElement rs this (Some r)) l s
  = (Normal tt, add_all rs c v l s).
Proof.
  intros Hc. unfold add_all. revert s.
  induction l as [|r l IH]; intros s Hv; [reflexivity|].
  cbn [forEach fold_left].
  run_with ltac:(apply (addRegionElement_eq rs this c r v s Hc Hv)).
  apply IH. rewrite attr_added_other by discriminate. exact Hv.
Qed.

Lemma attr_after_initControl_expanded document c s :
  attr (after_initControl document c s) c "aria-expanded"
  = Some (default "false" (attr s c "aria-expanded")).
Proof.
  unfold after_initControl. cbv zeta.
  rewrite attr_default_attr. case_decide as E; [destruct E; discriminate|].
  assert (H : attr (default_attr c "aria-expanded" "false" s) c "aria-expanded"
              = Some (default "false" (attr s c "aria-expanded"))).
  { rewrite attr_default_attr. case_decide as E'; [reflexivity|].
    exfalso. apply E'. split; reflexivity. }
  destruct (negb _); [|exact H].
  rewrite attr_put_ne by (right; discriminate). exact H.
Qed.

Lemma new_Collapsible_eq document rs el s :
  new_Collapsible document rs el s = constructed document rs el s.
Proof.
  unfold new_Collapsible, constructed. rewrite init_eq.
  cbn [element element_].
  destruct (control_of document s el) as [c|]; [|reflexivity].
  cbv zeta. set (this := MkCollapsible el (Some c)).
  set (s1 := after_initControl document c s).
  assert (Hv : attr s1 c "aria-expanded"
               = Some (default "false" (attr s c "aria-expanded")))
    by apply attr_after_initControl_expanded.
  unfold bind.
  rewrite (initRegions_eq document rs this c) by reflexivity.
  unfold s1 at 1. rewrite attr_after_initControl_other by discriminate.
  destruct (attr s c "aria-controls") as [w|] eqn:Hw.
  - rewrite (listed_ext s1 s c)
      by (apply attr_after_initControl_other; discriminate).
    destruct (first_bad (listed s c)); [reflexivity|].
    rewrite (forEach_addRegionElement_eq rs this c _ _ s1 eq_refl Hv).
    rewrite (regions_of_ext document s1 s c)
      by (try intros h; apply attr_after_initControl_other; discriminate).
    reflexivity.
  - cbn [element element_ this].
    rewrite (forEach_addRegionElement_eq rs this c _ _ s1 eq_refl Hv).
    rewrite (discovered_ext s1 s)
      by (intros h; apply attr_after_initControl_other; discriminate).
    reflexivity.
Qed.

(** ** Invariants of the operations *)

Lemma selector_failure_not_TypeError id : selector_failure id <> TypeError.
Proof. unfold selector_failure. destruct (classify id); discriminate. Qed.


Lemma forEach_invariant {A} (I : dom -> Prop) (f : A -> M unit) l :
  (forall x s, I s -> I (snd (f x s))) ->
  forall s, I s -> I (snd (forEach f l s)).
Proof.
  intros Hf. induction l as [|x l IH]; intros s Hs; [exact Hs|].
  cbn [forEach]. unfold bind. specialize (Hf x s Hs).
  destruct (f x s) as [[[]|e] s']; simpl in *; auto.
Qed.

(** No operation removes an attribute other than [hidden]. *)
Section Presence.

Variable document : node.
Variable rs : nat -> string.
Variable this : Collapsible.
Variable c : nat.
Variable a : string.
Hypothesis Hc : controlElement this = Some c.
Hypothesis Ha : a <> "hidden".

Let present (s : dom) (h : nat) : Prop := is_Some (attr s h a).

Lemma put_attr_keeps_present x b v s h :
  present s h -> present (put_attr x b v s) h.
Proof. unfold present. intros H. rewrite attr_put. case_decide; eauto. Qed.

Lemma default_attr_keeps_present x b v s h :
  present s h -> present (default_attr x b v s) h.
Proof. unfold present. intros H. rewrite attr_default_attr. case_decide; eauto. Qed.

Lemma expand_keeps_present s h :
  present s h -> present (snd (expand document this s)) h.
Proof.
  intros H. rewrite (expand_eq _ _ _ _ Hc). cbv zeta.
  destruct (first_bad _); simpl; [now apply put_attr_keeps_present|].
  unfold present. rewrite attr_show_all_other by now left.
  now apply put_attr_keeps_present.
Qed.

Lemma collapse_keeps_present s h :
  present s h -> present (snd (collapse document this s)) h.
Proof.
  intros H. rewrite (collapse_eq _ _ _ _ Hc). cbv zeta.
  destruct (first_bad _); simpl; [now apply put_attr_keeps_present|].
  unfold present. rewrite attr_hide_all_other by now left.
  now apply put_attr_keeps_present.
Qed.

Lemma added_keeps_present r v s h :
  present s h -> present (added rs c r v s) h.
Proof.
  intros H. unfold added, add_id. cbv zeta.
  assert (Hp : present (prepared rs r v s) h).
  { unfold prepared. apply default_attr_keeps_present. unfold shown_or_hidden.
    assert (H3 : present (put_attr r "role" "region"
                   (add_class r COLLAPSIBLE_REGION_CLASS (with_id rs r s))) h).
    { apply put_attr_keeps_present. unfold add_class.
      apply put_attr_keeps_present.
      unfold present. rewrite attr_with_id. case_decide; eauto. }
    destruct (String.eqb _ _); [now apply put_attr_keeps_present|].
    unfold present. rewrite attr_del.
    case_decide as E; [destruct E; congruence | exact H3]. }
  destruct (negb _); [now apply put_attr_keeps_present | exact Hp].
Qed.

Lemma addRegionElement_keeps_present r s h :
  is_Some (attr s c "aria-expanded") ->
  present s h -> present (snd (addRegionElement rs this r s)) h.
Proof.
  intros [v Hv] H. destruct r as [r|]; [|exact H].
  rewrite (addRegionElement_eq rs this c r v s Hc Hv).
  now apply added_keeps_present.
Qed.

Lemma removeRegionElement_keeps_present r s h :
  present s h -> present (snd (removeRegionElement this r s)) h.
Proof.
  intros H. destruct r as [r|]; [|exact H].
  rewrite (removeRegionElement_eq _ _ _ _ Hc).
  destruct (nonempty _); simpl; [now apply put_attr_keeps_present | exact H].
Qed.

End Presence.

Lemma perform_keeps_present document rs this op c s a :
  controlElement this = Some c ->
  a <> "hidden" ->
  is_Some (attr s c "aria-expanded") ->
  forall h, is_Some (attr s h a) ->
            is_Some (attr (snd (perform document rs this op s)) h a).
Proof.
  intros Hc Ha Hexpd h H. destruct op as [| | |r|r|l|l]; cbn [perform].
  - now apply expand_keeps_present with (c := c).
  - now apply collapse_keeps_present with (c := c).
  - destruct Hexpd as [v Hv]. rewrite (toggle_eq _ _ _ _ _ Hc Hv).
    destruct (String.eqb _ _);
      [now apply expand_keeps_present with (c := c)
      | now apply collapse_keeps_present with (c := c)].
  - now apply addRegionElement_keeps_present with (c := c).
  - now apply removeRegionElement_keeps_present with (c := c).
  - refine (proj2 (forEach_invariant
             (fun s => is_Some (attr s c "aria-expanded") /\ is_Some (attr s h a))
             _ l _ s (conj Hexpd H))).
    intros x s0 [H1 H2]. split.
    + apply addRegionElement_keeps_present with (c := c); auto; discriminate.
    + apply addRegionElement_keeps_present with (c := c); auto.
  - refine (forEach_invariant (fun s => is_Some (attr s h a)) _ l _ s H).
    intros x s0 H1. now apply removeRegionElement_keeps_present with (c := c).
Qed.

(** ** What the normalization leaves alone *)

Lemma kept_refl a s : kept a s s.
Proof. intros h v H. exact H. Qed.

Lemma kept_trans a s1 s2 s3 : kept a s1 s2 -> kept a s2 s3 -> kept a s1 s3.
Proof. intros H1 H2 h v H. apply H2, H1, H. Qed.

Lemma kept_put_other a x b v s : a <> b -> kept a s (put_attr x b v s).
Proof.
  intros Hab h w H. rewrite attr_put_ne; [exact H | right; congruence].
Qed.

Lemma kept_del_other a x b s : a <> b -> kept a s (del_attr x b s).
Proof.
  intros Hab h w H. rewrite attr_del_ne; [exact H | right; congruence].
Qed.

Lemma kept_default_attr a x b v s : kept a s (default_attr x b v s).
Proof.
  intros h w H. rewrite attr_default_attr. case_decide as E; [|exact H].
  destruct E as [<- <-]. now rewrite H.
Qed.

Lemma kept_with_id a rs r s : kept a s (with_id rs r s).
Proof.
  intros h w H. rewrite attr_with_id. case_decide as E; [|exact H].
  destruct E as [<- <-]. now rewrite H.
Qed.


Lemma kept_added a rs c r v s :
  a <> "class" -> a <> "role" -> a <> "hidden" -> a <> "aria-controls" ->
  kept a s (added rs c r v s).
Proof.
  intros H1 H2 H3 H4. unfold added, add_id, prepared. cbv zeta.
  eapply kept_trans;
    [|destruct (negb _); [now apply kept_put_other | apply kept_refl]].
  eapply kept_trans; [|apply kept_default_attr].
  eapply kept_trans;
    [|unfold shown_or_hidden; destruct (String.eqb _ _);
      [now apply kept_put_other | now apply kept_del_other]].
  eapply kept_trans; [|now apply kept_put_other].
  eapply kept_trans; [apply kept_with_id|].
  unfold add_class. now apply kept_put_other.
Qed.

Lemma kept_add_all a rs c v l s :
  a <> "class" -> a <> "role" -> a <> "hidden" -> a <> "aria-controls" ->
  kept a s (add_all rs c v l s).
Proof.
  intros H1 H2 H3 H4. unfold add_all. revert s.
  induction l as [|r l IH]; intros s; [apply kept_refl|].
  simpl. eapply kept_trans; [now apply kept_added | apply IH].
Qed.

Lemma attr_added_role rs c r v s h :
  attr (added rs c r v s) h "role"
  = if decide (r = h) then Some "region" else attr s h "role".
Proof.
  unfold added. cbv zeta. rewrite attr_add_id_other by discriminate.
  unfold prepared.
  rewrite attr_default_attr. case_decide as E; [destruct E; discriminate|].
  rewrite attr_shown_or_hidden_other by (right; discriminate).
  rewrite attr_put. case_decide as E1.
  - destruct E1 as [-> _]. now rewrite decide_True.
  - rewrite decide_False by (intros ->; apply E1; auto).
    rewrite attr_add_class_other by (right; discriminate).
    rewrite attr_with_id. case_decide as E2; [destruct E2; discriminate|].
    reflexivity.
Qed.

Lemma attr_add_all_role_out rs c v l s h :
  ~ In h l -> attr (add_all rs c v l s) h "role" = attr s h "role".
Proof.
  unfold add_all. revert s. induction l as [|r l IH]; intros s H; [reflexivity|].
  simpl. rewrite IH by (simpl in H; tauto).
  rewrite attr_added_role. apply decide_False. simpl in H. tauto.
Qed.


Lemma attr_after_initControl_role document c s :
  Js.toLowerCase (nodeName document c) <> "button" ->
  attr (after_initControl document c s) c "role" = Some "button".
Proof.
  intros Hn. unfold after_initControl. cbv zeta.
  apply String.eqb_neq in Hn. rewrite Hn. cbn [negb].
  rewrite attr_default_attr. case_decide as E; [destruct E; discriminate|].
  apply attr_put_eq.
Qed.

(** ** Class tokens *)

Lemma split_on_join p l :
  p " "%char = true -> l <> [] ->
  Forall (fun w => Js.has_char p w = false) l ->
  Js.split_on p (Js.join l) = l.
Proof.
  intros Hp. induction l as [|x r IH]; [congruence|].
  intros _ Hall. inversion Hall as [|? ? Hx Hr]; subst.
  destruct r as [|y r'].
  - simpl. now apply split_on_whole.
  - change (Js.join (x :: y :: r')) with (x +:+ String " " (Js.join (y :: r'))).
    rewrite split_on_app by assumption.
    f_equal. apply IH; [discriminate | assumption].
Qed.

Lemma filter_all {A} (p : A -> bool) l :
  (forall x, In x l -> p x = true) -> List.filter p l = l.
Proof.
  induction l as [|x r IH]; intros H; [reflexivity|]. simpl.
  rewrite (H x (or_introl eq_refl)). f_equal. apply IH. intros y Hy. apply H. now right.
Qed.

Lemma in_nub x l : In x (nub l) <-> In x l.
Proof.
  induction l as [|y r IH]; [reflexivity|]. simpl.
  rewrite filter_In, IH. split.
  - intros [H|[H _]]; auto.
  - intros [H|H]; [now left|].
    destruct (String.eqb y x) eqn:E.
    + apply String.eqb_eq in E. now left.
    + right. split; [assumption | reflexivity].
Qed.

Lemma NoDup_nub l : List.NoDup (nub l).
Proof.
  induction l as [|x r IH]; simpl; constructor.
  - rewrite filter_In. intros [_ H]. now rewrite String.eqb_refl in H.
  - now apply List.NoDup_filter.
Qed.

Lemma nub_NoDup l : List.NoDup l -> nub l = l.
Proof.
  induction 1 as [|x r Hx Hr IH]; [reflexivity|]. simpl. rewrite IH. f_equal.
  apply filter_all. intros y Hy. apply negb_true_iff, String.eqb_neq.
  intros ->. contradiction.
Qed.

Lemma token_set_tokens v : Forall token (token_set v).
Proof.
  apply List.Forall_forall. intros w Hw. unfold token_set in Hw.
  apply in_nub, filter_In in Hw as [Hin Hne]. split.
  - unfold nonempty in Hne. apply negb_true_iff, String.eqb_neq in Hne. exact Hne.
  - exact (split_on_pieces _ _ _ Hin).
Qed.

Lemma token_set_NoDup v : List.NoDup (token_set v).
Proof. apply NoDup_nub. Qed.

Lemma token_set_join l :
  Forall token l -> List.NoDup l -> token_set (Js.join l) = l.
Proof.
  intros Ht Hd. unfold token_set. destruct l as [|x r]; [reflexivity|].
  rewrite split_on_join; [| reflexivity | discriminate |].
  - rewrite filter_all; [now apply nub_NoDup|].
    intros w Hw. rewrite List.Forall_forall in Ht. destruct (Ht w Hw) as [Hne _].
    unfold nonempty. now apply negb_true_iff, String.eqb_neq.
  - eapply List.Forall_impl; [|exact Ht]. intros w [_ Hw]. exact Hw.
Qed.

Lemma region_class_token : token COLLAPSIBLE_REGION_CLASS.
Proof. split; [discriminate | reflexivity]. Qed.

(** The token set [classList.add] writes back. *)
Lemma added_tokens ts c :
  Forall token ts -> List.NoDup ts -> token c ->
  let ts' := if mem c ts then ts else ts ++ [c] in
  Forall token ts' /\ List.NoDup ts' /\ In c ts' /\
  (forall x, In x ts' <-> In x ts \/ x = c).
Proof.
  intros Ht Hd Hc. cbv zeta. destruct (mem c ts) eqn:Hm.
  - apply mem_In in Hm. split; [|split; [|split]]; auto.
    intros x. split; [now left | intros [H| ->]; assumption].
  - apply mem_false_In in Hm. split; [|split; [|split]].
    + apply List.Forall_app. split; [assumption | now constructor].
    + apply List.NoDup_app; [assumption | constructor; [intros [] | constructor] |].
      intros x Hx [<-|[]]. contradiction.
    + apply in_or_app. right. now left.
    + intros x. split.
      * intros H. apply in_app_or in H as [H|[<-|[]]]; auto.
      * intros [H| ->]; apply in_or_app; [now left | right; now left].
Qed.

(** ** Attributes after [addRegionElement] *)

Lemma id_of_token_region_class_ne : "id" <> "class".
Proof. discriminate. Qed.

Lemma attr_added_id rs c r v s h :
  attr (added rs c r v s) h "id" = attr (with_id rs r s) h "id".
Proof.
  unfold added. cbv zeta. rewrite attr_add_id_other by discriminate.
  unfold prepared.
  rewrite attr_default_attr. case_decide as E; [destruct E; discriminate|].
  rewrite attr_shown_or_hidden_other by (right; discriminate).
  rewrite attr_put_ne by (right; discriminate).
  now rewrite attr_add_class_other by (right; discriminate).
Qed.

Lemma attr_added_class rs c r v s h :
  attr (added rs c r v s) h "class"
  = attr (add_class r COLLAPSIBLE_REGION_CLASS (with_id rs r s)) h "class".
Proof.
  unfold added. cbv zeta. rewrite attr_add_id_other by discriminate.
  unfold prepared.
  rewrite attr_default_attr. case_decide as E; [destruct E; discriminate|].
  rewrite attr_shown_or_hidden_other by (right; discriminate).
  now rewrite attr_put_ne by (right; discriminate).
Qed.

Lemma attr_with_id_other rs r s h a :
  a <> "id" -> attr (with_id rs r s) h a = attr s h a.
Proof.
  intros H. rewrite attr_with_id.
  case_decide as E; [destruct E; congruence | reflexivity].
Qed.

Lemma attr_added_hidden rs c r v s h :
  attr (added rs c r v s) h "hidden"
  = if decide (r = h)
    then (if String.eqb (Js.toLowerCase v) "false" then Some "" else None)
    else attr s h "hidden".
Proof.
  unfold added. cbv zeta. rewrite attr_add_id_other by discriminate.
  unfold prepared.
  rewrite attr_default_attr. case_decide as E; [destruct E; discriminate|].
  unfold shown_or_hidden. destruct (String.eqb _ _).
  - rewrite attr_put. case_decide as E1.
    + destruct E1 as [-> _]. now rewrite decide_True.
    + rewrite decide_False by (intros ->; apply E1; auto).
      rewrite attr_put_ne by (right; discriminate).
      rewrite attr_add_class_other by (right; discriminate).
      now apply attr_with_id_other.
  - rewrite attr_del. case_decide as E1.
    + destruct E1 as [-> _]. now rewrite decide_True.
    + rewrite decide_False by (intros ->; apply E1; auto).
      rewrite attr_put_ne by (right; discriminate).
      rewrite attr_add_class_other by (right; discriminate).
      now apply attr_with_id_other.
Qed.

Lemma attr_added_tabindex rs c r v s h :
  attr (added rs c r v s) h "tabindex"
  = if decide (r = h) then Some (default "-1" (attr s r "tabindex"))
    else attr s h "tabindex".
Proof.
  unfold added. cbv zeta. rewrite attr_add_id_other by discriminate.
  unfold prepared.
  assert (H : forall x, attr (shown_or_hidden v r
                (put_attr r "role" "region"
                   (add_class r COLLAPSIBLE_REGION_CLASS (with_id rs r s))))
                x "tabindex" = attr s x "tabindex").
  { intros x. rewrite attr_shown_or_hidden_other by (right; discriminate).
    rewrite attr_put_ne by (right; discriminate).
    rewrite attr_add_class_other by (right; discriminate).
    now apply attr_with_id_other. }
  rewrite attr_default_attr. case_decide as E.
  - destruct E as [-> _]. rewrite decide_True by reflexivity. now rewrite H.
  - rewrite decide_False by (intros ->; apply E; auto). apply H.
Qed.

Lemma listed_prepared rs r v s c : listed (prepared rs r v s) c = listed s c.
Proof. apply listed_ext. apply attr_prepared_other; discriminate. Qed.

Lemma listed_add_id c id s :
  good_id id ->
  listed (add_id c id s) c
  = if mem id (listed s c) then listed s c else listed s c ++ [id].
Proof.
  intros [Hne Hsf]. unfold add_id. rewrite find_spec.
  destruct (mem id (listed s c)) eqn:Hm; simpl.
  - destruct id; [congruence | reflexivity].
  - unfold listed at 1. rewrite attr_put_eq. apply split_join.
    + now destruct (listed s c).
    + apply List.Forall_app. split; [|now constructor].
      unfold listed. destruct (attr s c "aria-controls"); [|constructor].
      apply split_pieces_space_free.
Qed.

Lemma in_listed_add_id c id s x :
  good_id id ->
  In x (listed (add_id c id s) c) <-> In x (listed s c) \/ x = id.
Proof.
  intros Hg. rewrite (listed_add_id _ _ _ Hg).
  destruct (mem id (listed s c)) eqn:Hm.
  - apply mem_In in Hm. split; [now left | intros [H| ->]; assumption].
  - rewrite in_app_iff. simpl. split.
    + intros [H|[<-|[]]]; auto.
    + intros [H| ->]; auto.
Qed.

Lemma in_listed_added rs c r v s x :
  good_id (id_of (added rs c r v s) r) ->
  In x (listed (added rs c r v s) c)
  <-> In x (listed s c) \/ x = id_of (added rs c r v s) r.
Proof.
  assert (E : id_of (added rs c r v s) r = id_of (prepared rs r v s) r).
  { unfold id_of, added. cbv zeta. now rewrite attr_add_id_other by discriminate. }
  rewrite E. intros Hg. unfold added. cbv zeta.
  rewrite (in_listed_add_id _ _ _ _ Hg). now rewrite listed_prepared.
Qed.

Lemma listed_space_free s c id : In id (listed s c) -> space_free id.
Proof.
  unfold listed. destruct (attr s c "aria-controls"); [|intros []].
  intros H. exact (split_on_pieces _ _ _ H).
Qed.

Lemma with_id_present rs r s :
  is_Some (attr s r "id") -> with_id rs r s = s.
Proof. intros H. unfold with_id. now rewrite bool_decide_eq_true_2. Qed.

Lemma attr_with_id_is_Some rs r s : is_Some (attr (with_id rs r s) r "id").
Proof. rewrite attr_with_id. rewrite decide_True by auto. eauto. Qed.

(** The region just added is in normal form. *)
Lemma added_settles rs c r v s :
  good_id (id_of (added rs c r v s) r) ->
  settled_region c v r (added rs c r v s).
Proof.
  intros Hg. unfold settled_region. split; [|split; [|split; [|split]]].
  - destruct (attr_with_id_is_Some rs r s) as [id Hid].
    assert (Ha : attr (added rs c r v s) r "id" = Some id)
      by now rewrite attr_added_id.
    assert (Ei : id_of (added rs c r v s) r = id) by (unfold id_of; now rewrite Ha).
    exists id. split; [exact Ha|]. rewrite Ei in Hg. split; [apply Hg|].
    apply in_listed_added; rewrite Ei; auto.
  - rewrite attr_added_class. unfold add_class. rewrite attr_put_eq.
    eexists. split; [reflexivity|].
    destruct (added_tokens (classList (with_id rs r s) r) COLLAPSIBLE_REGION_CLASS)
      as (H1 & H2 & H3 & _).
    + apply token_set_tokens.
    + apply token_set_NoDup.
    + apply region_class_token.
    + auto.
  - rewrite attr_added_role. now apply decide_True.
  - rewrite attr_added_hidden. now apply decide_True.
  - rewrite attr_added_tabindex. rewrite decide_True by reflexivity. eauto.
Qed.

(** ** Normal forms are fixed points *)

Lemma same_attributes_sym s1 s2 : same_attributes s1 s2 -> same_attributes s2 s1.
Proof. intros H h a. now rewrite H. Qed.

Lemma put_absorb s s' h a v :
  same_attributes s s' -> attr s h a = Some v ->
  same_attributes s (put_attr h a v s').
Proof.
  intros H Hv h' a'. rewrite attr_put. case_decide as E; [|apply H].
  destruct E as [<- <-]. exact Hv.
Qed.

Lemma del_absorb s s' h a :
  same_attributes s s' -> attr s h a = None ->
  same_attributes s (del_attr h a s').
Proof.
  intros H Hv h' a'. rewrite attr_del. case_decide as E; [|apply H].
  destruct E as [<- <-]. exact Hv.
Qed.

Lemma default_absorb s s' h a v :
  same_attributes s s' -> is_Some (attr s h a) ->
  same_attributes s (default_attr h a v s').
Proof.
  intros H [w Hw] h' a'. rewrite attr_default_attr. case_decide as E; [|apply H].
  destruct E as [<- <-]. rewrite <- H, Hw. reflexivity.
Qed.

Lemma classList_same s s' h :
  same_attributes s s' -> classList s h = classList s' h.
Proof. intros H. apply classList_ext, H. Qed.

Lemma listed_same s s' c : same_attributes s s' -> listed s c = listed s' c.
Proof. intros H. apply listed_ext, H. Qed.

Lemma settled_region_same c v r s s' :
  same_attributes s s' -> settled_region c v r s -> settled_region c v r s'.
Proof.
  intros H ((id & H1 & H2 & H3) & (ts & H4 & H5) & H6 & H7 & H8).
  unfold settled_region. rewrite <- !H, <- (listed_same s s' c H). eauto 10.
Qed.

Lemma added_noop rs c r v s :
  settled_region c v r s -> same_attributes s (added rs c r v s).
Proof.
  intros ((id & Hid & Hne & Hin) & (ts & Hcl & Ht & Hd & Hreg) & Hrole & Hhid & Htab).
  unfold added, prepared. cbv zeta. rewrite with_id_present by eauto.
  set (s1 := add_class r COLLAPSIBLE_REGION_CLASS s).
  assert (E1 : same_attributes s s1).
  { unfold s1, add_class, classList. rewrite Hcl. simpl default.
    rewrite (token_set_join ts Ht Hd).
    apply mem_In in Hreg. rewrite Hreg.
    apply put_absorb; [apply same_attributes_refl | exact Hcl]. }
  set (s2 := put_attr r "role" "region" s1).
  assert (E2 : same_attributes s s2) by (now apply put_absorb).
  set (s3 := shown_or_hidden v r s2).
  assert (E3 : same_attributes s s3).
  { unfold s3, shown_or_hidden. destruct (String.eqb _ _);
      [now apply put_absorb | now apply del_absorb]. }
  set (s4 := default_attr r "tabindex" "-1" s3).
  assert (E4 : same_attributes s s4) by (now apply default_absorb).
  assert (Ei : id_of s4 r = id) by (unfold id_of; now rewrite <- E4, Hid).
  rewrite Ei. unfold add_id. rewrite <- (listed_same s s4 c E4), find_spec.
  apply mem_In in Hin. rewrite Hin.
  destruct id; [congruence | exact E4].
Qed.

Lemma id_of_added_kept rs c r v s l :
  id_of (add_all rs c v l (added rs c r v s)) r = id_of (added rs c r v s) r.
Proof.
  destruct (attr_with_id_is_Some rs r s) as [id Hid].
  assert (Ha : attr (added rs c r v s) r "id" = Some id)
    by now rewrite attr_added_id.
  unfold id_of. rewrite Ha.
  now rewrite (kept_add_all "id" rs c v l _ ltac:(discriminate) ltac:(discriminate)
                 ltac:(discriminate) ltac:(discriminate) r id Ha).
Qed.

Lemma settled_preserved rs c r r' v s :
  settled_region c v r s ->
  good_id (id_of (added rs c r' v s) r') ->
  settled_region c v r (added rs c r' v s).
Proof.
  intros Hs Hg. destruct (decide (r' = r)) as [->|Hne]; [now apply added_settles|].
  destruct Hs as ((id & Hid & Hn & Hin) & (ts & Hcl & Ht) & Hrole & Hhid & Htab).
  unfold settled_region. split; [|split; [|split; [|split]]].
  - exists id. split; [|split; [exact Hn|]].
    + rewrite attr_added_id, attr_with_id.
      case_decide as E; [destruct E; contradiction | exact Hid].
    + apply in_listed_added; auto.
  - exists ts. split; [|exact Ht].
    rewrite attr_added_class, attr_add_class_other by now left.
    rewrite attr_with_id_other by discriminate. exact Hcl.
  - rewrite attr_added_role. now rewrite decide_False.
  - rewrite attr_added_hidden. now rewrite decide_False.
  - rewrite attr_added_tabindex. now rewrite decide_False.
Qed.

Lemma add_all_settles rs c v l s :
  (forall x, In x l -> good_id (id_of (add_all rs c v l s) x)) ->
  forall r, In r l \/ settled_region c v r s ->
            settled_region c v r (add_all rs c v l s).
Proof.
  revert s. induction l as [|r0 l IH]; intros s Hg r Hr.
  - destruct Hr as [[]|Hr]. exact Hr.
  - change (add_all rs c v (r0 :: l) s)
      with (add_all rs c v l (added rs c r0 v s)) in *.
    assert (Hg0 : good_id (id_of (added rs c r0 v s) r0)).
    { rewrite <- (id_of_added_kept rs c r0 v s l). apply Hg. now left. }
    apply IH; [intros x Hx; apply Hg; now right|].
    destruct Hr as [[<-|Hr]|Hr].
    + right. now apply added_settles.
    + now left.
    + right. now apply settled_preserved.
Qed.

Lemma in_listed_add_all rs c v l s x :
  (forall y, In y l -> good_id (id_of (add_all rs c v l s) y)) ->
  In x (listed (add_all rs c v l s) c) ->
  In x (listed s c) \/ exists r, In r l /\ x = id_of (add_all rs c v l s) r.
Proof.
  revert s. induction l as [|r0 l IH]; intros s Hg Hx; [left; exact Hx|].
  change (add_all rs c v (r0 :: l) s)
    with (add_all rs c v l (added rs c r0 v s)) in *.
  assert (Hg0 : good_id (id_of (added rs c r0 v s) r0)).
  { rewrite <- (id_of_added_kept rs c r0 v s l). apply Hg. left. reflexivity. }
  destruct (IH _ (fun y Hy => Hg y (or_intror Hy)) Hx) as [H|(r & Hr & E)].
  - pose proof (proj1 (in_listed_added rs c r0 v s x Hg0) H) as H'.
    destruct H' as [H'|H'].
    + left. exact H'.
    + right. exists r0. split; [left; reflexivity|].
      rewrite H'. symmetry. apply id_of_added_kept.
  - right. exists r. split; [right; exact Hr | exact E].
Qed.

Lemma mem_iff x l l' : (In x l <-> In x l') -> mem x l = mem x l'.
Proof.
  intros H. destruct (mem x l') eqn:E.
  - apply mem_In. apply H. now apply mem_In.
  - apply mem_false_In. intros Hin. apply mem_false_In in E. tauto.
Qed.

Lemma classList_contains_added rs c r v s h c0 :
  c0 <> COLLAPSIBLE_REGION_CLASS ->
  classList_contains (added rs c r v s) h c0 = classList_contains s h c0.
Proof.
  intros Hc0. unfold classList_contains, classList.
  rewrite attr_added_class. unfold add_class. rewrite attr_put.
  assert (Hw : classList (with_id rs r s) r = classList s r).
  { apply classList_ext. apply attr_with_id_other. discriminate. }
  case_decide as E.
  - destruct E as [<- _]. simpl default.
    destruct (added_tokens (classList (with_id rs r s) r) COLLAPSIBLE_REGION_CLASS
                (token_set_tokens _) (token_set_NoDup _) region_class_token)
      as (H1 & H2 & _ & H4).
    rewrite (token_set_join _ H1 H2). apply mem_iff. rewrite H4.
    fold (classList s r). rewrite Hw. split; [intros [H|H]; [exact H | contradiction]|].
    now left.
  - now rewrite attr_with_id_other by discriminate.
Qed.

Lemma control_of_added document rs c r v s el :
  control_of document (added rs c r v s) el = control_of document s el.
Proof.
  apply first_with_ext. intros h. apply classList_contains_added. discriminate.
Qed.

Lemma control_of_add_all document rs c v l s el :
  control_of document (add_all rs c v l s) el = control_of document s el.
Proof.
  unfold add_all. revert s. induction l as [|r l IH]; intros s; [reflexivity|].
  simpl. rewrite IH. apply control_of_added.
Qed.

Lemma control_of_after_initControl document c s el :
  control_of document (after_initControl document c s) el = control_of document s el.
Proof.
  apply first_with_ext. intros h. unfold classList_contains.
  now rewrite (classList_ext (after_initControl document c s) s h)
    by (apply attr_after_initControl_other; discriminate).
Qed.

Lemma identifier_good id : classify id = Identifier -> good_id id.
Proof.
  unfold classify. destruct (all_chars name_char id) eqn:Hall; [|discriminate].
  intros H. split.
  - intros ->. discriminate.
  - clear H. induction id as [|ch r IH]; [reflexivity|].
    simpl in Hall. apply andb_true_iff in Hall as [Hc Hr].
    unfold space_free. simpl. rewrite (IH Hr), orb_false_r.
    unfold Js.is_space. destruct (Ascii.eqb ch " ") eqn:E; [|reflexivity].
    apply Ascii.eqb_eq in E. subst ch. discriminate.
Qed.

Lemma agree_except_role_of_same r s s' :
  same_attributes s s' -> agree_except_role r s s'.
Proof. intros H h a _. apply H. Qed.

Lemma agree_except_role_trans_same r s s1 s2 :
  agree_except_role r s s1 -> same_attributes s1 s2 -> agree_except_role r s s2.
Proof. intros H1 H2 h a Hne. rewrite (H1 h a Hne). apply H2. Qed.

Lemma after_initControl_agree document c s :
  is_Some (attr s c "aria-expanded") -> is_Some (attr s c "tabindex") ->
  agree_except_role c s (after_initControl document c s).
Proof.
  intros He Ht h a Hne. unfold after_initControl. cbv zeta.
  assert (E1 : same_attributes s (default_attr c "aria-expanded" "false" s))
    by (apply default_absorb; [apply same_attributes_refl | exact He]).
  rewrite attr_default_attr. case_decide as E.
  - destruct E as [<- <-]. destruct Ht as [w Hw].
    destruct (negb _).
    + rewrite attr_put_ne by (right; discriminate). rewrite <- E1, Hw. reflexivity.
    + rewrite <- E1, Hw. reflexivity.
  - destruct (negb _); [|apply E1].
    rewrite attr_put. case_decide as E'; [|apply E1].
    destruct E' as [<- <-]. destruct Hne; congruence.
Qed.

Lemma after_initControl_noop document c s :
  is_Some (attr s c "aria-expanded") -> is_Some (attr s c "tabindex") ->
  Js.toLowerCase (nodeName document c) = "button" \/ attr s c "role" = Some "button" ->
  same_attributes s (after_initControl document c s).
Proof.
  intros He Ht Hr h a.
  destruct (decide (h = c /\ a = "role")) as [[-> ->]|Hne].
  - unfold after_initControl. cbv zeta.
    rewrite attr_default_attr. case_decide as E; [destruct E; discriminate|].
    destruct (String.eqb (Js.toLowerCase (nodeName document c)) "button") eqn:Hb;
      cbn [negb].
    + rewrite attr_default_attr.
      case_decide as E'; [destruct E'; discriminate | reflexivity].
    + destruct Hr as [Hr|Hr]; [apply String.eqb_neq in Hb; contradiction|].
      now rewrite attr_put_eq.
  - apply after_initControl_agree; auto.
    destruct (decide (h = c)) as [->|Hh]; [right | now left].
    intros ->. apply Hne. auto.
Qed.

(** [addRegionElement] brings back the normal form of a region whose
    [role] alone was changed. *)
Lemma added_noop_upto rs c r v s s' :
  settled_region c v r s ->
  agree_except_role r s s' ->
  same_attributes s (added rs c r v s').
Proof.
  intros ((id & Hid & Hne & Hin) & (ts & Hcl & Ht & Hd & Hreg) & Hrole & Hhid & Htab)
         Hag.
  assert (Hid' : attr s' r "id" = Some id)
    by (rewrite <- Hag; [exact Hid | right; discriminate]).
  unfold added, prepared. cbv zeta. rewrite with_id_present by eauto.
  set (s1 := add_class r COLLAPSIBLE_REGION_CLASS s').
  assert (E1 : agree_except_role r s s1).
  { intros h a Hn. unfold s1, add_class, classList.
    rewrite <- (Hag r "class") by (right; discriminate).
    rewrite Hcl. simpl default. rewrite (token_set_join ts Ht Hd).
    apply mem_In in Hreg. rewrite Hreg.
    rewrite attr_put. case_decide as E; [|now apply Hag].
    destruct E as [<- <-]. exact Hcl. }
  set (s2 := put_attr r "role" "region" s1).
  assert (E2 : same_attributes s s2).
  { intros h a. unfold s2. rewrite attr_put. case_decide as E.
    - destruct E as [<- <-]. exact Hrole.
    - apply E1. destruct (decide (h = r)); [right|left]; naive_solver. }
  set (s3 := shown_or_hidden v r s2).
  assert (E3 : same_attributes s s3).
  { unfold s3, shown_or_hidden. destruct (String.eqb _ _);
      [now apply put_absorb | now apply del_absorb]. }
  set (s4 := default_attr r "tabindex" "-1" s3).
  assert (E4 : same_attributes s s4) by (now apply default_absorb).
  assert (Ei : id_of s4 r = id) by (unfold id_of; now rewrite <- E4, Hid).
  rewrite Ei. unfold add_id. rewrite <- (listed_same s s4 c E4), find_spec.
  apply mem_In in Hin. rewrite Hin.
  destruct id; [congruence | exact E4].
Qed.

Lemma add_all_noop rs c v l s s' :
  (forall r, In r l -> settled_region c v r s) ->
  same_attributes s s' ->
  same_attributes s (add_all rs c v l s').
Proof.
  intros Hl. unfold add_all. revert s'.
  induction l as [|r l IH]; intros s' H; [exact H|].
  simpl. apply IH; [intros x Hx; apply Hl; now right|].
  apply added_noop_upto; [apply Hl; now left|].
  now apply agree_except_role_of_same.
Qed.

Lemma settled_region_agree c v r x s s' :
  r <> x -> agree_except_role x s s' ->
  settled_region c v r s -> settled_region c v r s'.
Proof.
  intros Hne Hag ((id & H1 & H2 & H3) & (ts & H4 & H5) & H6 & H7 & H8).
  assert (Hl : listed s c = listed s' c)
    by (apply listed_ext, Hag; right; discriminate).
  unfold settled_region. rewrite <- Hl.
  rewrite <- !(Hag r) by now left. eauto 10.
Qed.

Lemma add_all_restores rs c v x l s s' :
  (forall r, In r l -> settled_region c v r s) ->
  agree_except_role x s s' ->
  (In x l -> same_attributes s (add_all rs c v l s')) /\
  agree_except_role x s (add_all rs c v l s').
Proof.
  intros Hl. unfold add_all. revert s'.
  induction l as [|r l IH]; intros s' Hag.
  - split; [intros [] | exact Hag].
  - simpl. assert (Hl' : forall y, In y l -> settled_region c v y s)
      by (intros y Hy; apply Hl; now right).
    destruct (decide (r = x)) as [->|Hne].
    + assert (E : same_attributes s (added rs c x v s'))
        by (apply added_noop_upto; [apply Hl; now left | exact Hag]).
      split.
      * intros _. now apply (add_all_noop rs c v l s).
      * apply agree_except_role_of_same. now apply (add_all_noop rs c v l s).
    + assert (E : agree_except_role x s (added rs c r v s')).
      { eapply agree_except_role_trans_same; [exact Hag|].
        apply added_noop. apply (settled_region_agree c v r x s s' Hne Hag).
        apply Hl. now left. }
      destruct (IH Hl' _ E) as [H1 H2]. split; [|exact H2].
      intros [Hx|Hx]; [contradiction | now apply H1].
Qed.

Lemma init_constructed document rs this s :
  init document rs this s = constructed document rs (element this) s.
Proof.
  rewrite <- new_Collapsible_eq. unfold new_Collapsible.
  rewrite !init_eq. reflexivity.
Qed.

Lemma constructed_normal document rs el s this s1 :
  new_Collapsible document rs el s = (Normal this, s1) ->
  exists c,
    control_of document s el = Some c /\
    this = MkCollapsible el (Some c) /\
    s1 = add_all rs c (default "false" (attr s c "aria-expanded"))
           (initial_regions document el c s) (after_initControl document c s) /\
    (is_Some (attr s c "aria-controls") -> first_bad (listed s c) = None).
Proof.
  rewrite new_Collapsible_eq. unfold constructed, initial_regions.
  destruct (control_of document s el) as [c|]; [|discriminate].
  cbv zeta. intros H. exists c. split; [reflexivity|].
  destruct (attr s c "aria-controls") as [w|].
  - destruct (first_bad (listed s c)); [discriminate|].
    injection H as <- <-. auto.
  - injection H as <- <-. repeat split. intros [? ?]. discriminate.
Qed.

(** * The claims *)

(** C1, as it holds.  When every id the control lists is an identifier (so
    that no lookup throws), [expand()] completes, leaves [aria-expanded] at
    ['true'] and no [hidden] on any region whose listed id resolves, and
    [collapse()] completes, leaves ['false'] and [hidden] on every such
    region; neither changes what is listed or how ids resolve. *)
Theorem expand_collapse_keep_in_sync :
  forall (document : node) (this : Collapsible) (c : nat) (s : dom),
    controlElement this = Some c ->
    Forall (fun id => classify id = Identifier) (listed s c) ->
    (exists s',
        expand document this s = (Normal tt, s') /\
        attr s' c "aria-expanded" = Some "true" /\
        (forall id r, In id (listed s c) -> by_id document s id = Some r ->
                      attr s' r "hidden" = None) /\
        listed s' c = listed s c /\
        (forall id, by_id document s' id = by_id document s id)) /\
    (exists s',
        collapse document this s = (Normal tt, s') /\
        attr s' c "aria-expanded" = Some "false" /\
        (forall id r, In id (listed s c) -> by_id document s id = Some r ->
                      attr s' r "hidden" = Some "") /\
        listed s' c = listed s c /\
        (forall id, by_id document s' id = by_id document s id)).
Proof.
  intros document this c s Hc Hids. apply first_bad_none in Hids. split.
  - rewrite (expand_eq _ _ _ _ Hc). cbv zeta. rewrite Hids.
    eexists. split; [reflexivity|]. split; [|split; [|split]].
    + rewrite attr_show_all_other by (left; discriminate). apply attr_put_eq.
    + intros id r Hin Hr. apply attr_show_all_in, in_regions_of. eauto.
    + apply listed_ext. rewrite attr_show_all_other by (left; discriminate).
      apply attr_put_ne. right. discriminate.
    + intros id. apply by_id_ext. intros h.
      rewrite attr_show_all_other by (left; discriminate).
      apply attr_put_ne. right. discriminate.
  - rewrite (collapse_eq _ _ _ _ Hc). cbv zeta. rewrite Hids.
    eexists. split; [reflexivity|]. split; [|split; [|split]].
    + rewrite attr_hide_all_other by (left; discriminate). apply attr_put_eq.
    + intros id r Hin Hr. apply attr_hide_all_in, in_regions_of. eauto.
    + apply listed_ext. rewrite attr_hide_all_other by (left; discriminate).
      apply attr_put_ne. right. discriminate.
    + intros id. apply by_id_ext. intros h.
      rewrite attr_hide_all_other by (left; discriminate).
      apply attr_put_ne. right. discriminate.
Qed.

Lemma expand_collapse_keep_in_sync_witness :
  exists s',
    expand Fixture.page Fixture.component Fixture.two_controlled = (Normal tt, s') /\
    attr s' 2 "aria-expanded" = Some "true".
Proof.
  destruct (expand_collapse_keep_in_sync
              Fixture.page Fixture.component 2 Fixture.two_controlled)
    as [(s' & Hrun & Hattr & _) _].
  - reflexivity.
  - apply first_bad_none. vm_compute. reflexivity.
  - exists s'. split; [exact Hrun | exact Hattr].
Defined.

(** C1, as stated, fails.  Two sibling regions with ids [intro] and [2]:
    initialization completes and lists both; [expand()] then writes
    ['true'], throws on the selector [#2] and leaves the region [intro],
    whose id is listed and resolves, hidden. *)
Lemma expand_leaves_resolved_region_hidden :
  let r := new_Collapsible Fixture.page Fixture.randomString 1 Fixture.numeric_id in
  fst r = Normal Fixture.component /\
  listed (snd r) 2 = ["intro"; "2"] /\
  fst (expand Fixture.page Fixture.component (snd r)) = Throw (SyntaxError "#2") /\
  ~ expand_in_sync Fixture.page Fixture.component 2 (snd r).
Proof.
  cbv zeta. split; [|split; [|split]].
  - vm_compute. reflexivity.
  - vm_compute. reflexivity.
  - vm_compute. reflexivity.
  - intros [_ H]. specialize (H "intro" 3).
    assert (Hh : attr (snd (expand Fixture.page Fixture.component
                  (snd (new_Collapsible Fixture.page Fixture.randomString 1
                          Fixture.numeric_id)))) 3 "hidden" = Some "")
      by (vm_compute; reflexivity).
    rewrite H in Hh; [discriminate | |].
    + vm_compute. left. reflexivity.
    + vm_compute. reflexivity.
Qed.

(** C3.  When the control lists the id of a region (possibly among others),
    [removeRegionElement(region)] with that non-null region of non-empty id
    rewrites [aria-controls] to the join of exactly the listed ids that are
    equal to [region.id]: every other id is dropped and the id of the region
    passed is the one that stays. *)
Theorem removeRegionElement_keeps_only_region :
  forall (this : Collapsible) (c r : nat) (s : dom) (v : string),
    controlElement this = Some c ->
    attr s c "aria-controls" = Some v ->
    id_of s r <> "" ->
    In (id_of s r) (Js.split v) ->
    let kept := List.filter (fun id => String.eqb id (id_of s r)) (Js.split v) in
    exists s',
      removeRegionElement this (Some r) s = (Normal tt, s') /\
      attr s' c "aria-controls" = Some (Js.join kept) /\
      (forall id, In id kept <-> In id (Js.split v) /\ id = id_of s r) /\
      listed s' c = kept /\
      In (id_of s r) (listed s' c) /\
      (forall id, id <> id_of s r -> ~ In id (listed s' c)).
Proof.
  intros this c r s v Hc Hv Hid Hin kept.
  assert (Hkept : forall id, In id kept <-> In id (Js.split v) /\ id = id_of s r).
  { intros id. unfold kept. rewrite filter_In, String.eqb_eq. reflexivity. }
  assert (Hne : kept <> []).
  { intros E. assert (In (id_of s r) kept) as Hk by (apply Hkept; auto).
    rewrite E in Hk. destruct Hk. }
  assert (Hsf : Forall space_free kept).
  { apply List.Forall_forall. intros id Hk. apply Hkept in Hk as [Hk _].
    exact (split_on_pieces _ _ _ Hk). }
  assert (Hl : listed (put_attr c "aria-controls" (Js.join kept) s) c = kept).
  { unfold listed. rewrite attr_put_eq. now apply split_join. }
  exists (put_attr c "aria-controls" (Js.join kept) s).
  split; [|split; [|split; [|split; [|split]]]].
  - rewrite (removeRegionElement_eq _ _ _ _ Hc).
    unfold nonempty. apply String.eqb_neq in Hid. rewrite Hid. simpl.
    unfold listed. rewrite Hv. reflexivity.
  - apply attr_put_eq.
  - exact Hkept.
  - exact Hl.
  - rewrite Hl. apply Hkept. auto.
  - intros id Hd. rewrite Hl. intros Hk. apply Hkept in Hk as [_ E]. congruence.
Qed.

Lemma removeRegionElement_keeps_only_region_witness :
  exists s',
    removeRegionElement Fixture.component (Some 3) Fixture.two_controlled
      = (Normal tt, s') /\
    attr s' 2 "aria-controls" = Some "region-1".
Proof.
  destruct (removeRegionElement_keeps_only_region
              Fixture.component 2 3 Fixture.two_controlled "region-1 region-2")
    as (s' & Hrun & Hattr & _).
  - reflexivity.
  - vm_compute. reflexivity.
  - vm_compute. discriminate.
  - vm_compute. left. reflexivity.
  - exists s'. split; [exact Hrun | exact Hattr].
Defined.



(** C5, as it holds.  When the control has no [aria-controls],
    initialization sets up the control and then calls [addRegionElement],
    in document order, on the following siblings of the component that have
    the region class and come before the first sibling that has the
    collapsible class without the region class; siblings with neither class
    are skipped, and a sibling with both classes is added and walked past. *)
Theorem init_discovers_following_siblings :
  forall (document : node) (randomString : nat -> string) (el c : nat) (s : dom),
    control_of document s el = Some c ->
    attr s c "aria-controls" = None ->
    let this := MkCollapsible el (Some c) in
    let siblings := nextElementSiblings document el in
    new_Collapsible document randomString el s
    = bind (forEach (fun r => addRegionElement randomString this (Some r))
                    (discovered s siblings))
           (fun _ => ret this)
           (after_initControl document c s) /\
    (forall r,
        In r (discovered s siblings) <->
        is_region s r = true /\
        exists before after,
          siblings = before ++ r :: after /\
          forall x, In x before ->
                    is_collapsible s x = true -> is_region s x = true).
Proof.
  intros document rs el c s Hctl Hnone this siblings. split.
  - unfold new_Collapsible. rewrite init_eq.
    cbn [element element_]. rewrite Hctl. cbv zeta. fold this.
    assert (Hreg : initRegions document rs this (after_initControl document c s)
                   = forEach (fun r => addRegionElement rs this (Some r))
                       (discovered s siblings) (after_initControl document c s)).
    { rewrite (initRegions_eq document rs this c) by reflexivity.
      rewrite attr_after_initControl_other by discriminate. rewrite Hnone.
      rewrite (discovered_ext (after_initControl document c s) s)
        by (intros h; apply attr_after_initControl_other; discriminate).
      reflexivity. }
    unfold bind. rewrite Hreg. reflexivity.
  - intros r. unfold discovered. rewrite filter_In, in_before_first. split.
    + intros [(b & a & E & Hr & Hb) Hreg]. split; [exact Hreg|].
      exists b, a. split; [exact E|]. intros x Hx Hcol.
      specialize (Hb x Hx). rewrite Hcol in Hb. simpl in Hb.
      now apply negb_false_iff in Hb.
    + intros [Hreg (b & a & E & Hb)]. split; [|exact Hreg].
      exists b, a. split; [exact E|]. split.
      * rewrite Hreg. apply andb_false_r.
      * intros x Hx. destruct (is_collapsible s x) eqn:Hcol; [|reflexivity].
        rewrite (Hb x Hx Hcol). reflexivity.
Qed.

Lemma init_discovers_following_siblings_witness :
  In 4 (discovered Fixture.numeric_id (nextElementSiblings Fixture.page 1)).
Proof.
  apply (init_discovers_following_siblings
           Fixture.page Fixture.randomString 1 2 Fixture.numeric_id).
  - vm_compute. reflexivity.
  - vm_compute. reflexivity.
  - split; [vm_compute; reflexivity|].
    exists [3], []. split; [vm_compute; reflexivity|].
    intros x [<-|[]] _. vm_compute. reflexivity.
Defined.

(** C5, as stated, fails.  The first following sibling has both the region
    and the collapsible class: the walk does not stop there, it adds that
    sibling and the region after it, where the specified walk adds none. *)
Lemma walk_passes_collapsible_region :
  let siblings := nextElementSiblings Fixture.page 1 in
  siblings = [3; 4] /\
  is_collapsible Fixture.nested 3 = true /\
  walk Fixture.nested siblings [] = [3; 4] /\
  discovered_as_specified Fixture.nested siblings = [] /\
  walk Fixture.nested siblings [] <> discovered_as_specified Fixture.nested siblings /\
  attr (snd (new_Collapsible Fixture.page Fixture.randomString 1 Fixture.nested))
       4 "role" = Some "region".
Proof.
  cbv zeta. repeat split; try (vm_compute; reflexivity).
  vm_compute. discriminate.
Qed.

(** The region association where it is as specified.  [regionIds] is the
    [aria-controls] value split on single spaces, or the empty list when
    the attribute is absent; a non-empty [id] is appended, and
    [aria-controls] rewritten with the join, exactly when it is not
    listed. *)
Lemma regionIds_and_addRegionId_nonempty :
  forall (this : Collapsible) (c : nat) (s : dom),
    controlElement this = Some c ->
    (forall v, attr s c "aria-controls" = Some v ->
               regionIds this s = (Normal (Js.split v), s)) /\
    (attr s c "aria-controls" = None -> regionIds this s = (Normal [], s)) /\
    (forall id, id <> "" ->
       (~ In id (listed s c) ->
          addRegionId this id s =
          (Normal tt, put_attr c "aria-controls" (Js.join (listed s c ++ [id])) s)) /\
       (In id (listed s c) -> addRegionId this id s = (Normal tt, s))).
Proof.
  intros this c s Hc. split; [|split].
  - intros v Hv. rewrite (regionIds_eq _ _ _ Hc). unfold listed. now rewrite Hv.
  - intros Hv. rewrite (regionIds_eq _ _ _ Hc). unfold listed. now rewrite Hv.
  - intros id Hid. rewrite (addRegionId_nonempty _ _ _ _ Hc Hid). split; intros H.
    + apply mem_false_In in H. now rewrite H.
    + apply mem_In in H. now rewrite H.
Qed.

(** C7.  The empty id is the missed case: with [aria-controls=""] the list
    is [[""]], the id [""] is in it, and [addRegionId("")] still pushes it
    and rewrites [aria-controls] to a single space.  The public methods get
    there: on a constructed widget, [addRegionElements(e)] with an element
    [e] whose [id] attribute is empty leaves [aria-controls=""], and the
    same call again leaves [aria-controls=" "]. *)
Theorem addRegionId_pushes_listed_empty_id :
  regionIds Fixture.component Fixture.empty_controls
    = (Normal [""], Fixture.empty_controls) /\
  In "" (listed Fixture.empty_controls 2) /\
  attr (snd (addRegionId Fixture.component "" Fixture.empty_controls))
       2 "aria-controls" = Some " " /\
  let made := new_MaterialExtCollapsible Fixture.page Fixture.randomString
                Fixture.IS_UPGRADED (Some 1) Fixture.empty_id in
  let add := addRegionElements Fixture.randomString Fixture.widget [Some 3] in
  fst made = Normal Fixture.widget /\
  fst (add (snd made)) = Normal tt /\
  attr (snd (add (snd made))) 2 "aria-controls" = Some "" /\
  fst (add (snd (add (snd made)))) = Normal tt /\
  attr (snd (add (snd (add (snd made))))) 2 "aria-controls" = Some " ".
Proof.
  cbv zeta. repeat split; try (vm_compute; reflexivity).
  vm_compute. left. reflexivity.
Qed.

(** A widget built on an element holds the internal object that
    [new Collapsible] built on that element. *)
Lemma constructed_widget_holds_collapsible
    document randomString IS_UPGRADED el s0 w s1 :
  new_MaterialExtCollapsible document randomString IS_UPGRADED (Some el) s0
    = (Normal w, s1) ->
  exists c s,
    new_Collapsible document randomString el s0 = (Normal c, s) /\
    w = MkWidget (Some el) (Some c).
Proof.
  unfold new_MaterialExtCollapsible, widget_init. cbn [widget_element_].
  unfold bind at 1.
  destruct (new_Collapsible document randomString el s0) as [[c|e] s] eqn:E;
    [|discriminate].
  unfold bind. destruct (classList_add el IS_UPGRADED s) as [[[]|e] s'];
    [|discriminate].
  intros H. injection H as <- <-. eauto.
Qed.

(** C8.  A widget constructed on an element holds the internal object
    that [new Collapsible] built on that element, and every public method
    of the widget is the corresponding method of that object: same
    completion and same state, with [addRegionElements] and
    [removeRegionElements] running the single-element method on each
    argument in order. *)
Theorem adapter_forwards :
  forall (document : node) (randomString : nat -> string) (IS_UPGRADED : string)
         (el : nat) (s0 : dom) (w : MaterialExtCollapsible) (s1 : dom),
    new_MaterialExtCollapsible document randomString IS_UPGRADED (Some el) s0
      = (Normal w, s1) ->
    exists c,
      collapsible w = Some c /\
      fst (new_Collapsible document randomString el s0) = Normal c /\
      (forall s, getControlElement w s = (Normal (controlElement c), s)) /\
      (forall s, getRegionElements document w s = regionElements document c s) /\
      (forall els s, addRegionElements randomString w els s
                     = forEach (addRegionElement randomString c) els s) /\
      (forall els s, removeRegionElements w els s
                     = forEach (removeRegionElement c) els s) /\
      (forall s, widget_expand document w s = expand document c s) /\
      (forall s, widget_collapse document w s = collapse document c s) /\
      (forall s, widget_toggle document w s = toggle document c s).
Proof.
  intros document randomString IS_UPGRADED el s0 w s1 Hnew.
  destruct (constructed_widget_holds_collapsible _ _ _ _ _ _ _ Hnew)
    as (c & s & Hc & ->).
  exists c. split; [reflexivity|]. split; [now rewrite Hc|].
  unfold getControlElement, getRegionElements, addRegionElements,
    removeRegionElements, widget_expand, widget_collapse, widget_toggle.
  cbn [collapsible]. repeat split; reflexivity.
Qed.

Lemma adapter_forwards_witness :
  exists c,
    collapsible Fixture.widget = Some c /\
    fst (new_Collapsible Fixture.page Fixture.randomString 1
           Fixture.two_controlled) = Normal c.
Proof.
  destruct (adapter_forwards Fixture.page Fixture.randomString
              Fixture.IS_UPGRADED 1 Fixture.two_controlled Fixture.widget
              (snd (new_MaterialExtCollapsible Fixture.page Fixture.randomString
                      Fixture.IS_UPGRADED (Some 1) Fixture.two_controlled)))
    as (c & H1 & H2 & _).
  - apply pair_of_fst. vm_compute. reflexivity.
  - exists c. split; [exact H1 | exact H2].
Defined.

(** C9.  When the constructor completes, the control carries
    [aria-expanded], with the value it had or ['false'] if it had none; and
    in every state the component goes through afterwards the control still
    carries it, since every operation, however it completes, keeps it.  So
    [toggle()] never reads a member of [null], and
    [addRegionElement(region)] with an element completes normally. *)
Theorem aria_expanded_stays_present :
  forall (document : node) (randomString : nat -> string) (el : nat)
         (s0 : dom) (this : Collapsible),
    (forall s,
        new_Collapsible document randomString el s0 = (Normal this, s) ->
        exists c,
          controlElement this = Some c /\
          attr s c "aria-expanded"
            = Some (default "false" (attr s0 c "aria-expanded"))) /\
    (forall s,
        reachable document randomString el s0 this s ->
        initialized this s /\
        (forall op,
            initialized this (snd (perform document randomString this op s))) /\
        fst (toggle document this s) <> Throw TypeError /\
        (forall r,
            fst (addRegionElement randomString this (Some r) s) = Normal tt)).
Proof.
  intros document rs el s0 this.
  assert (Hnew : forall s,
             new_Collapsible document rs el s0 = (Normal this, s) ->
             exists c,
               controlElement this = Some c /\
               attr s c "aria-expanded"
                 = Some (default "false" (attr s0 c "aria-expanded"))).
  { intros s H. destruct (constructed_normal _ _ _ _ _ _ H) as (c & _ & -> & -> & _).
    exists c. split; [reflexivity|].
    rewrite attr_add_all_other by discriminate.
    apply attr_after_initControl_expanded. }
  assert (Hstep : forall s op, initialized this s ->
             initialized this (snd (perform document rs this op s))).
  { intros s op (c & Hc & Hp). exists c. split; [exact Hc|].
    apply (perform_keeps_present document rs this op c s "aria-expanded");
      auto; discriminate. }
  split; [exact Hnew|]. intros s Hreach.
  assert (Hinit : initialized this s).
  { induction Hreach as [s H | s op Hreach IH].
    - destruct (Hnew s H) as (c & Hc & Hv). exists c. rewrite Hv. eauto.
    - now apply Hstep. }
  split; [exact Hinit|]. split; [intros op; now apply Hstep|].
  destruct Hinit as (c & Hc & [v Hv]). split.
  - rewrite (toggle_eq _ _ _ _ _ Hc Hv).
    destruct (String.eqb _ _).
    + rewrite (expand_eq _ _ _ _ Hc). cbv zeta.
      destruct (first_bad _); simpl; [|discriminate].
      intros E. injection E as E. now apply selector_failure_not_TypeError in E.
    + rewrite (collapse_eq _ _ _ _ Hc). cbv zeta.
      destruct (first_bad _); simpl; [|discriminate].
      intros E. injection E as E. now apply selector_failure_not_TypeError in E.
  - intros r. now rewrite (addRegionElement_eq rs this c r v s Hc Hv).
Qed.

Lemma aria_expanded_stays_present_witness :
  let s1 := snd (new_Collapsible Fixture.page Fixture.randomString 1
                   Fixture.numeric_id) in
  initialized Fixture.component
    (snd (perform Fixture.page Fixture.randomString Fixture.component Expand s1)).
Proof.
  cbv zeta.
  apply (proj2 (aria_expanded_stays_present Fixture.page Fixture.randomString 1
                  Fixture.numeric_id Fixture.component)).
  apply reach_new.
  apply pair_of_fst. vm_compute. reflexivity.
Defined.







(** C6, as it holds.  [addRegionElement(region)] a second time changes no
    attribute when the id the region has after the first call is not empty
    and holds no space.  [init()] a second time completes and changes no
    attribute when the ids of the regions the first run added are selector
    identifiers and every id then listed resolves to one of those regions
    (with the control found again, should it be one of them). *)
Theorem normalization_is_idempotent :
  (forall (randomString : nat -> string) (this : Collapsible) (c r : nat)
          (v : string) (s : dom),
      controlElement this = Some c ->
      attr s c "aria-expanded" = Some v ->
      let s1 := snd (addRegionElement randomString this (Some r) s) in
      good_id (id_of s1 r) ->
      addRegionElement randomString this (Some r) s = (Normal tt, s1) /\
      exists s2,
        addRegionElement randomString this (Some r) s1 = (Normal tt, s2) /\
        same_attributes s1 s2) /\
  (forall (document : node) (randomString : nat -> string) (el : nat)
          (s0 : dom) (this : Collapsible) (c : nat) (s1 : dom),
      new_Collapsible document randomString el s0 = (Normal this, s1) ->
      controlElement this = Some c ->
      (forall r, In r (initial_regions document el c s0) ->
                 classify (id_of s1 r) = Identifier) ->
      (forall r, In r (regions_of document s1 c) ->
                 In r (initial_regions document el c s0)) ->
      (In c (initial_regions document el c s0) ->
       In c (regions_of document s1 c)) ->
      exists s2,
        init document randomString this s1 = (Normal this, s2) /\
        same_attributes s1 s2).
Proof.
  split.
  - intros rs this c r v s Hc Hv s1 Hg. unfold s1 in *. clear s1.
    rewrite (addRegionElement_eq rs this c r v s Hc Hv) in *. cbn [snd] in *.
    split; [reflexivity|].
    assert (Hv1 : attr (added rs c r v s) c "aria-expanded" = Some v)
      by (rewrite attr_added_other by discriminate; exact Hv).
    rewrite (addRegionElement_eq rs this c r v _ Hc Hv1). simpl.
    eexists. split; [reflexivity|].
    apply added_noop. now apply added_settles.
  - intros document rs el s0 this c s1 Hnew Hc Hid Hres Hctl.
    destruct (constructed_normal _ _ _ _ _ _ Hnew) as (c' & Hc0 & -> & Hs1 & Hbad).
    simpl in Hc. injection Hc as ->.
    set (v := default "false" (attr s0 c "aria-expanded")) in *.
    set (L := initial_regions document el c s0) in *.
    set (s0' := after_initControl document c s0) in *.
    assert (Hgood : forall x, In x L -> good_id (id_of (add_all rs c v L s0') x)).
    { intros x Hx. apply identifier_good. rewrite <- Hs1. now apply Hid. }
    assert (Hset : forall r, In r L -> settled_region c v r s1).
    { intros r Hr. rewrite Hs1. apply add_all_settles; auto. }
    assert (Hexp : attr s1 c "aria-expanded" = Some v).
    { rewrite Hs1, attr_add_all_other by discriminate.
      apply attr_after_initControl_expanded. }
    assert (Htab0 : is_Some (attr s0' c "tabindex")).
    { unfold s0', after_initControl. cbv zeta. rewrite attr_default_attr.
      rewrite decide_True by auto. eauto. }
    assert (Htab : is_Some (attr s1 c "tabindex")).
    { destruct Htab0 as [w Hw]. exists w. rewrite Hs1.
      apply (kept_add_all "tabindex"); auto; discriminate. }
    assert (Hsel : first_bad (listed s1 c) = None).
    { apply first_bad_none, List.Forall_forall. intros id Hin.
      rewrite Hs1 in Hin. apply in_listed_add_all in Hin; [|exact Hgood].
      destruct Hin as [Hin|(r & Hr & ->)].
      - unfold s0' in Hin.
        rewrite (listed_ext (after_initControl document c s0) s0 c) in Hin
          by (apply attr_after_initControl_other; discriminate).
        assert (Hp : is_Some (attr s0 c "aria-controls")).
        { unfold listed in Hin. destruct (attr s0 c "aria-controls"); [eauto|].
          destruct Hin. }
        specialize (Hbad Hp). apply first_bad_none in Hbad.
        rewrite List.Forall_forall in Hbad. now apply Hbad.
      - rewrite <- Hs1. now apply Hid. }
    assert (Hagree : agree_except_role c s1 (after_initControl document c s1))
      by (apply after_initControl_agree; eauto).
    rewrite init_constructed. cbn [element element_]. unfold constructed.
    assert (Hc1 : control_of document s1 el = Some c).
    { rewrite Hs1, control_of_add_all. unfold s0'.
      now rewrite control_of_after_initControl. }
    rewrite Hc1. cbv zeta. rewrite Hexp. simpl default.
    destruct (attr s1 c "aria-controls") as [w|] eqn:Hw.
    + rewrite Hsel. eexists. split; [reflexivity|].
      destruct (in_dec Nat.eq_dec c (regions_of document s1 c)) as [Hin|Hout].
      * apply (add_all_restores rs c v c (regions_of document s1 c) s1); auto.
      * apply add_all_noop; [auto|].
        apply after_initControl_noop; eauto.
        destruct (String.eqb (Js.toLowerCase (nodeName document c)) "button") eqn:Hb;
          [left; now apply String.eqb_eq|].
        right. rewrite Hs1.
        rewrite attr_add_all_role_out by (intros H; apply Hout, Hctl, H).
        apply attr_after_initControl_role. now apply String.eqb_neq.
    + assert (HL : L = []).
      { destruct L as [|r l] eqn:EL; [reflexivity|]. exfalso.
        assert (Hp : is_Some (attr s1 c "aria-controls")); [|rewrite Hw in Hp; now destruct Hp].
        rewrite Hs1.
        change (add_all rs c v (r :: l) s0')
          with (add_all rs c v l (added rs c r v s0')).
        assert (Hp1 : is_Some (attr (added rs c r v s0') c "aria-controls")).
        { unfold added, add_id. cbv zeta. rewrite find_spec.
          destruct (mem _ _) eqn:Hm.
          - apply mem_In in Hm. unfold listed in Hm.
            destruct (attr (prepared rs r v s0') c "aria-controls") eqn:E;
              [|destruct Hm].
            destruct (negb _); [rewrite attr_put_eq; eauto | rewrite E; eauto].
          - cbn [negb Js.truthy]. rewrite attr_put_eq. eauto. }
        clear - Hp1. revert Hp1. generalize (added rs c r v s0') as s.
        unfold add_all. induction l as [|x l IH]; intros s Hp; [exact Hp|].
        simpl. apply IH. apply added_keeps_present; [discriminate | exact Hp]. }
      assert (Hd : discovered s1 (nextElementSiblings document el) = []).
      { assert (Hnone : attr s0 c "aria-controls" = None).
        { destruct (attr s0 c "aria-controls") as [w0|] eqn:E0; [|reflexivity].
          exfalso.
          assert (K : attr s1 c "aria-controls" = Some w0).
          { rewrite Hs1, HL. simpl. unfold s0'.
            now rewrite attr_after_initControl_other by discriminate. }
          congruence. }
        rewrite Hs1, HL. simpl. unfold s0'.
        rewrite (discovered_ext (after_initControl document c s0) s0)
          by (intros h; apply attr_after_initControl_other; discriminate).
        unfold L, initial_regions in HL. now rewrite Hnone in HL. }
      rewrite Hd. simpl. eexists. split; [reflexivity|].
      apply after_initControl_noop; eauto.
      destruct (String.eqb (Js.toLowerCase (nodeName document c)) "button") eqn:Hb;
        [left; now apply String.eqb_eq|].
      right. rewrite Hs1, HL. simpl.
      apply attr_after_initControl_role. now apply String.eqb_neq.
Qed.

Lemma normalization_is_idempotent_witness :
  let s1 := snd (new_Collapsible Fixture.page_with_link Fixture.randomString 1
                   Fixture.author_role) in
  exists s2,
    init Fixture.page_with_link Fixture.randomString Fixture.component s1
      = (Normal Fixture.component, s2) /\
    same_attributes s1 s2.
Proof.
  cbv zeta.
  apply (proj2 normalization_is_idempotent
           Fixture.page_with_link Fixture.randomString 1 Fixture.author_role
           Fixture.component 2).
  - apply pair_of_fst. vm_compute. reflexivity.
  - reflexivity.
  - intros r Hr. vm_compute in Hr. destruct Hr as [<-|[]]. vm_compute. reflexivity.
  - intros r Hr. vm_compute in Hr. destruct Hr as [<-|[]]. vm_compute. now left.
  - intros Hc. vm_compute in Hc. destruct Hc as [Hc|[]]. discriminate Hc.
Defined.

(** C6, as stated, fails, in both halves.  An element before the component
    shares the id of the sibling region: the second [init()] resolves the
    listed id to that element and turns it into a region.  And an element
    whose id holds a space is listed again by the second
    [addRegionElement]. *)
Lemma second_run_changes_attributes :
  let r := new_Collapsible Fixture.page_with_leading_div Fixture.randomString 1
             Fixture.duplicate_id in
  fst r = Normal Fixture.component /\
  attr (snd r) 5 "role" = None /\
  attr (snd (init Fixture.page_with_leading_div Fixture.randomString
               Fixture.component (snd r))) 5 "role" = Some "region" /\
  ~ init_idempotent Fixture.page_with_leading_div Fixture.randomString
      Fixture.component (snd r) /\
  let a := addRegionElement Fixture.randomString Fixture.component (Some 3) in
  fst (a Fixture.spaced_id) = Normal tt /\
  attr (snd (a Fixture.spaced_id)) 2 "aria-controls" = Some "my region" /\
  attr (snd (a (snd (a Fixture.spaced_id)))) 2 "aria-controls"
    = Some "my region my region" /\
  ~ addRegionElement_idempotent Fixture.randomString Fixture.component 3
      Fixture.spaced_id.
Proof.
  cbv zeta. repeat split; try (vm_compute; reflexivity).
  - intros H. specialize (H 5 "role"). vm_compute in H. discriminate.
  - intros H. specialize (H 2 "aria-controls"). vm_compute in H. discriminate.
Qed.

(** * Further properties of the component *)

(** ** The adapter *)

(** X1.  A widget constructed on [null] is left without internal object and
    the construction writes nothing; on such a widget every public method
    throws a [TypeError] and writes nothing, except the two variadic
    methods called without argument, which do nothing. *)
Theorem null_widget_is_inert :
  forall (document : node) (randomString : nat -> string) (IS_UPGRADED : string)
         (s : dom),
    new_MaterialExtCollapsible document randomString IS_UPGRADED None s
      = (Normal null_widget, s) /\
    getControlElement null_widget s = (Throw TypeError, s) /\
    getRegionElements document null_widget s = (Throw TypeError, s) /\
    widget_expand document null_widget s = (Throw TypeError, s) /\
    widget_collapse document null_widget s = (Throw TypeError, s) /\
    widget_toggle document null_widget s = (Throw TypeError, s) /\
    (forall els,
        addRegionElements randomString null_widget els s
        = (if els is [] then Normal tt else Throw TypeError, s)) /\
    (forall els,
        removeRegionElements null_widget els s
        = (if els is [] then Normal tt else Throw TypeError, s)).
Proof.
  intros document rs isup s. repeat split; try reflexivity.
  - intros [|e els]; reflexivity.
  - intros [|e els]; reflexivity.
Qed.

Lemma classList_add_token h c s :
  token c -> classList_add h c s = (Normal tt, add_class h c s).
Proof.
  intros [Hne Hws]. unfold classList_add.
  apply String.eqb_neq in Hne. rewrite Hne, Hws. reflexivity.
Qed.

Lemma classList_add_class h c s :
  token c ->
  classList (add_class h c s) h
  = if mem c (classList s h) then classList s h else classList s h ++ [c].
Proof.
  intros Hc. unfold classList at 1. unfold add_class. rewrite attr_put_eq.
  simpl default.
  destruct (added_tokens (classList s h) c
              (token_set_tokens _) (token_set_NoDup _) Hc) as (H1 & H2 & _).
  now apply token_set_join.
Qed.

Lemma classList_contains_add_class h c s h' c0 :
  token c ->
  classList_contains (add_class h c s) h' c0
  = if decide (h = h' /\ c = c0) then true else classList_contains s h' c0.
Proof.
  intros Hc. unfold classList_contains.
  destruct (decide (h = h')) as [<-|Hh].
  - rewrite (classList_add_class h c s Hc).
    destruct (added_tokens (classList s h) c
                (token_set_tokens _) (token_set_NoDup _) Hc) as (_ & _ & H3 & H4).
    cbv zeta in H3, H4. case_decide as E.
    + destruct E as [_ <-]. now apply mem_In.
    + apply mem_iff. rewrite H4. split; [|now left].
      intros [H| ->]; [exact H|]. exfalso. apply E. auto.
  - rewrite decide_False by (intros [E _]; contradiction).
    f_equal. apply classList_ext. unfold add_class. apply attr_put_ne. now left.
Qed.

(** X2.  With a class token for [IS_UPGRADED]: when [new Collapsible(el)]
    completes, the widget constructor completes with that object, has added
    the class [IS_UPGRADED] to [el], has kept every class [el] had and has
    written no other attribute; when [new Collapsible(el)] throws, the
    widget constructor throws the same exception in the same state, with
    the class not added. *)
Theorem widget_construction_marks_upgraded :
  forall (document : node) (randomString : nat -> string) (IS_UPGRADED : string)
         (el : nat) (s : dom),
    token IS_UPGRADED ->
    (forall this s1,
        new_Collapsible document randomString el s = (Normal this, s1) ->
        exists s2,
          new_MaterialExtCollapsible document randomString IS_UPGRADED (Some el) s
            = (Normal (MkWidget (Some el) (Some this)), s2) /\
          classList_contains s2 el IS_UPGRADED = true /\
          (forall c0, classList_contains s1 el c0 = true ->
                      classList_contains s2 el c0 = true) /\
          (forall h a, h <> el \/ a <> "class" -> attr s2 h a = attr s1 h a)) /\
    (forall e s1,
        new_Collapsible document randomString el s = (Throw e, s1) ->
        new_MaterialExtCollapsible document randomString IS_UPGRADED (Some el) s
          = (Throw e, s1)).
Proof.
  intros document rs isup el s Htok. split.
  - intros this s1 Hnew. exists (add_class el isup s1).
    split; [|split; [|split]].
    + unfold new_MaterialExtCollapsible, widget_init. cbn [widget_element_].
      rewrite (bind_normal _ _ _ _ _ Hnew).
      rewrite (bind_normal _ _ _ _ _ (classList_add_token el isup s1 Htok)).
      reflexivity.
    + rewrite classList_contains_add_class by assumption.
      now rewrite decide_True.
    + intros c0 H. rewrite classList_contains_add_class by assumption.
      case_decide; [reflexivity | exact H].
    + intros h a Hne. unfold add_class. apply attr_put_ne.
      destruct Hne as [Hne|Hne]; [left | right]; congruence.
  - intros e s1 Hnew.
    unfold new_MaterialExtCollapsible, widget_init. cbn [widget_element_].
    now rewrite (bind_throw _ _ _ _ _ Hnew).
Qed.

Lemma widget_construction_marks_upgraded_witness :
  exists s2,
    new_MaterialExtCollapsible Fixture.page Fixture.randomString
      Fixture.IS_UPGRADED (Some 1) Fixture.two_controlled
      = (Normal Fixture.widget, s2) /\
    classList_contains s2 1 Fixture.IS_UPGRADED = true.
Proof.
  assert (Htok : token Fixture.IS_UPGRADED).
  { split; [intros E; vm_compute in E; discriminate E | vm_compute; reflexivity]. }
  destruct (proj1 (widget_construction_marks_upgraded
                     Fixture.page Fixture.randomString Fixture.IS_UPGRADED 1
                     Fixture.two_controlled Htok)
              Fixture.component
              (snd (new_Collapsible Fixture.page Fixture.randomString 1
                      Fixture.two_controlled)))
    as (s2 & H1 & H2 & _).
  - apply pair_of_fst. vm_compute. reflexivity.
  - exists s2. split; [exact H1 | exact H2].
Defined.

(** ** [expand], [collapse] and [toggle] *)

Lemma attr_show_all l s h a :
  attr (show_all l s) h a
  = if decide (a = "hidden" /\ h ∈ l) then None else attr s h a.
Proof.
  case_decide as E.
  - destruct E as [-> Hin]. apply attr_show_all_in. now apply list_elem_of_In.
  - apply attr_show_all_other.
    destruct (decide (a = "hidden")) as [->|Ha]; [right | now left].
    intros Hin. apply E. split; [reflexivity | now apply list_elem_of_In].
Qed.

Lemma attr_hide_all l s h a :
  attr (hide_all l s) h a
  = if decide (a = "hidden" /\ h ∈ l) then Some "" else attr s h a.
Proof.
  case_decide as E.
  - destruct E as [-> Hin]. apply attr_hide_all_in. now apply list_elem_of_In.
  - apply attr_hide_all_other.
    destruct (decide (a = "hidden")) as [->|Ha]; [right | now left].
    intros Hin. apply E. split; [reflexivity | now apply list_elem_of_In].
Qed.





Lemma after_expand_views document c s l :
  let s' := show_all l (put_attr c "aria-expanded" "true" s) in
  listed s' c = listed s c /\ regions_of document s' c = regions_of document s c.
Proof.
  cbv zeta.
  assert (H : forall h a, a <> "hidden" -> a <> "aria-expanded" ->
            attr (show_all l (put_attr c "aria-expanded" "true" s)) h a = attr s h a).
  { intros h a H1 H2. rewrite attr_show_all_other by now left.
    apply attr_put_ne. right. congruence. }
  split.
  - apply listed_ext, H; discriminate.
  - apply regions_of_ext; [intros h|]; apply H; discriminate.
Qed.

Lemma after_collapse_views document c s l :
  let s' := hide_all l (put_attr c "aria-expanded" "false" s) in
  listed s' c = listed s c /\ regions_of document s' c = regions_of document s c.
Proof.
  cbv zeta.
  assert (H : forall h a, a <> "hidden" -> a <> "aria-expanded" ->
            attr (hide_all l (put_attr c "aria-expanded" "false" s)) h a = attr s h a).
  { intros h a H1 H2. rewrite attr_hide_all_other by now left.
    apply attr_put_ne. right. congruence. }
  split.
  - apply listed_ext, H; discriminate.
  - apply regions_of_ext; [intros h|]; apply H; discriminate.
Qed.

(** X4.  When every listed id is an identifier, the last of two calls
    decides: [expand()] after [collapse()] or after [expand()] leaves the
    attributes [expand()] alone leaves, and [collapse()] after [expand()]
    or after [collapse()] leaves those of [collapse()] alone. *)
Theorem last_of_expand_collapse_wins :
  forall (document : node) (this : Collapsible) (c : nat) (s : dom),
    controlElement this = Some c ->
    Forall (fun id => classify id = Identifier) (listed s c) ->
    let e := expand document this in
    let k := collapse document this in
    same_attributes (snd (e (snd (k s)))) (snd (e s)) /\
    same_attributes (snd (e (snd (e s)))) (snd (e s)) /\
    same_attributes (snd (k (snd (e s)))) (snd (k s)) /\
    same_attributes (snd (k (snd (k s)))) (snd (k s)).
Proof.
  intros document this c s Hc Hids e k. unfold e, k.
  apply first_bad_none in Hids.
  assert (He : expand document this s
               = (Normal tt, show_all (regions_of document s c)
                               (put_attr c "aria-expanded" "true" s)))
    by (rewrite (expand_eq _ _ _ _ Hc); cbv zeta; now rewrite Hids).
  assert (Hk : collapse document this s
               = (Normal tt, hide_all (regions_of document s c)
                               (put_attr c "aria-expanded" "false" s)))
    by (rewrite (collapse_eq _ _ _ _ Hc); cbv zeta; now rewrite Hids).
  rewrite He, Hk. cbn [snd].
  destruct (after_expand_views document c s (regions_of document s c)) as [Le Re].
  destruct (after_collapse_views document c s (regions_of document s c)) as [Lk Rk].
  rewrite !(expand_eq _ _ _ _ Hc), !(collapse_eq _ _ _ _ Hc). cbv zeta.
  rewrite Le, Lk, Re, Rk, Hids. cbn [snd].
  repeat split; intros h a;
    repeat first [ rewrite attr_show_all | rewrite attr_hide_all
                 | rewrite attr_put | case_decide ];
    try reflexivity; try tauto; destruct_and?; simplify_eq.
Qed.

Lemma last_of_expand_collapse_wins_witness :
  same_attributes
    (snd (expand Fixture.page Fixture.component
            (snd (collapse Fixture.page Fixture.component Fixture.two_controlled))))
    (snd (expand Fixture.page Fixture.component Fixture.two_controlled)).
Proof.
  apply (last_of_expand_collapse_wins
           Fixture.page Fixture.component 2 Fixture.two_controlled).
  - reflexivity.
  - apply first_bad_none. vm_compute. reflexivity.
Defined.

(** X5.  On an initialized component whose listed ids are identifiers,
    [toggle()] completes and flips the state: [aria-expanded] becomes
    ['true'] if its lowercased value was ['false'] and ['false'] otherwise.
    A second [toggle()] flips it back, so that a control that said exactly
    ['true'] or ['false'] says so again, and the regions are hidden exactly
    when it says ['false']. *)
Theorem toggle_twice_restores :
  forall (document : node) (this : Collapsible) (c : nat) (v : string) (s : dom),
    controlElement this = Some c ->
    attr s c "aria-expanded" = Some v ->
    Forall (fun id => classify id = Identifier) (listed s c) ->
    let collapsed := String.eqb (Js.toLowerCase v) "false" in
    exists s1 s2,
      toggle document this s = (Normal tt, s1) /\
      toggle document this s1 = (Normal tt, s2) /\
      attr s1 c "aria-expanded" = Some (if collapsed then "true" else "false") /\
      attr s2 c "aria-expanded" = Some (if collapsed then "false" else "true") /\
      (v = "true" \/ v = "false" -> attr s2 c "aria-expanded" = Some v) /\
      (forall r, In r (regions_of document s c) ->
                 attr s1 r "hidden" = (if collapsed then None else Some "") /\
                 attr s2 r "hidden" = (if collapsed then Some "" else None)).
Proof.
  intros document this c v s Hc Hv Hids collapsed.
  apply first_bad_none in Hids.
  set (R := regions_of document s c).
  assert (He : forall s0, listed s0 c = listed s c ->
                 regions_of document s0 c = R ->
                 expand document this s0
                 = (Normal tt, show_all R (put_attr c "aria-expanded" "true" s0))).
  { intros s0 HL HR. rewrite (expand_eq _ _ _ _ Hc). cbv zeta.
    now rewrite HL, HR, Hids. }
  assert (Hk : forall s0, listed s0 c = listed s c ->
                 regions_of document s0 c = R ->
                 collapse document this s0
                 = (Normal tt, hide_all R (put_attr c "aria-expanded" "false" s0))).
  { intros s0 HL HR. rewrite (collapse_eq _ _ _ _ Hc). cbv zeta.
    now rewrite HL, HR, Hids. }
  destruct (after_expand_views document c s R) as [Le Re].
  destruct (after_collapse_views document c s R) as [Lk Rk].
  assert (Hae : forall l x s0, attr (show_all l (put_attr c "aria-expanded" x s0))
                                 c "aria-expanded" = Some x).
  { intros l x s0. rewrite attr_show_all_other by (left; discriminate).
    apply attr_put_eq. }
  assert (Hak : forall l x s0, attr (hide_all l (put_attr c "aria-expanded" x s0))
                                 c "aria-expanded" = Some x).
  { intros l x s0. rewrite attr_hide_all_other by (left; discriminate).
    apply attr_put_eq. }
  rewrite (toggle_eq document this c v s Hc Hv). fold collapsed.
  destruct collapsed eqn:Hcol.
  - rewrite (He s eq_refl eq_refl).
    eexists. eexists. split; [reflexivity|].
    rewrite (toggle_eq document this c "true" _ Hc (Hae _ _ _)).
    change (String.eqb (Js.toLowerCase "true") "false") with false. cbv iota.
    rewrite (Hk _ Le Re).
    split; [reflexivity|]. split; [apply Hae|]. split; [apply Hak|]. split.
    + intros [->| ->]; [discriminate Hcol | apply Hak].
    + intros r Hr. split; [now apply attr_show_all_in | now apply attr_hide_all_in].
  - rewrite (Hk s eq_refl eq_refl).
    eexists. eexists. split; [reflexivity|].
    rewrite (toggle_eq document this c "false" _ Hc (Hak _ _ _)).
    change (String.eqb (Js.toLowerCase "false") "false") with true. cbv iota.
    rewrite (He _ Lk Rk).
    split; [reflexivity|]. split; [apply Hak|]. split; [apply Hae|]. split.
    + intros [->| ->]; [apply Hae | discriminate Hcol].
    + intros r Hr. split; [now apply attr_hide_all_in | now apply attr_show_all_in].
Qed.

Lemma toggle_twice_restores_witness :
  exists s1 s2,
    toggle Fixture.page Fixture.component Fixture.two_controlled = (Normal tt, s1) /\
    toggle Fixture.page Fixture.component s1 = (Normal tt, s2) /\
    attr s2 2 "aria-expanded" = Some "true".
Proof.
  destruct (toggle_twice_restores Fixture.page Fixture.component 2 "true"
              Fixture.two_controlled)
    as (s1 & s2 & H1 & H2 & _ & H4 & _).
  - reflexivity.
  - vm_compute. reflexivity.
  - apply first_bad_none. vm_compute. reflexivity.
  - exists s1, s2. split; [exact H1|]. split; [exact H2 | exact H4].
Defined.

(** ** The region association *)

(** X6.  [addRegionId(id)] with an id that is not empty and holds no space
    completes, and [regionIds] is then the former list, with [id] at its
    end if it was not a member: [id] is listed, every id listed before
    still is, in the same order, and the same call again changes
    nothing. *)
Theorem addRegionId_then_regionIds :
  forall (this : Collapsible) (c : nat) (id : string) (s : dom),
    controlElement this = Some c ->
    good_id id ->
    exists s',
      addRegionId this id s = (Normal tt, s') /\
      regionIds this s'
      = (Normal (if mem id (listed s c) then listed s c else listed s c ++ [id]),
         s') /\
      In id (listed s' c) /\
      (forall x, In x (listed s c) -> In x (listed s' c)) /\
      addRegionId this id s' = (Normal tt, s').
Proof.
  intros this c id s Hc Hg. exists (add_id c id s).
  assert (HL : listed (add_id c id s) c
               = if mem id (listed s c) then listed s c else listed s c ++ [id])
    by now apply listed_add_id.
  assert (Hin : In id (listed (add_id c id s) c))
    by (apply in_listed_add_id; auto).
  split; [now apply addRegionId_add_id|].
  split; [rewrite (regionIds_eq _ _ _ Hc); now rewrite HL|].
  split; [exact Hin|]. split.
  - intros x Hx. apply in_listed_add_id; auto.
  - rewrite (addRegionId_nonempty _ _ _ _ Hc (proj1 Hg)).
    apply mem_In in Hin. now rewrite Hin.
Qed.

Lemma addRegionId_then_regionIds_witness :
  exists s',
    addRegionId Fixture.component "region-3" Fixture.two_controlled
      = (Normal tt, s') /\
    regionIds Fixture.component s'
      = (Normal ["region-1"; "region-2"; "region-3"], s').
Proof.
  destruct (addRegionId_then_regionIds Fixture.component 2 "region-3"
              Fixture.two_controlled)
    as (s' & H1 & H2 & _).
  - reflexivity.
  - split; [discriminate | reflexivity].
  - exists s'. split; [exact H1|].
    rewrite H2. f_equal.
Defined.

Lemma filter_none {A} (p : A -> bool) l :
  (forall x, In x l -> p x = false) -> List.filter p l = [].
Proof.
  induction l as [|x r IH]; intros H; [reflexivity|]. simpl.
  rewrite (H x (or_introl eq_refl)). apply IH. intros y Hy. apply H. now right.
Qed.

(** X7.  [removeRegionElement] does nothing for [null] and for an element
    without a non-empty id.  For an element whose non-empty id is not
    listed it sets [aria-controls] to the empty string, whatever was
    listed: [regionIds] is then the list of the empty string alone, and
    [regionElements], [expand()] and [collapse()] throw a [SyntaxError] for
    the selector [#]. *)
Theorem removeRegionElement_of_unlisted_region :
  forall (document : node) (this : Collapsible) (c : nat) (s : dom),
    controlElement this = Some c ->
    removeRegionElement this None s = (Normal tt, s) /\
    (forall r, id_of s r = "" ->
               removeRegionElement this (Some r) s = (Normal tt, s)) /\
    (forall r,
        id_of s r <> "" -> ~ In (id_of s r) (listed s c) ->
        exists s',
          removeRegionElement this (Some r) s = (Normal tt, s') /\
          attr s' c "aria-controls" = Some "" /\
          regionIds this s' = (Normal [""], s') /\
          regionElements document this s' = (Throw (SyntaxError "#"), s') /\
          fst (expand document this s') = Throw (SyntaxError "#") /\
          fst (collapse document this s') = Throw (SyntaxError "#")).
Proof.
  intros document this c s Hc. split; [reflexivity|]. split.
  - intros r Hr. rewrite (removeRegionElement_eq _ _ _ _ Hc), Hr. reflexivity.
  - intros r Hne Hout. exists (put_attr c "aria-controls" "" s).
    assert (HL : listed (put_attr c "aria-controls" "" s) c = [""])
      by (unfold listed; now rewrite attr_put_eq).
    split; [|split; [|split; [|split; [|split]]]].
    + rewrite (removeRegionElement_eq _ _ _ _ Hc).
      apply String.eqb_neq in Hne. unfold nonempty. rewrite Hne. cbn [negb].
      rewrite filter_none; [reflexivity|].
      intros x Hx. apply String.eqb_neq. intros ->. contradiction.
    + apply attr_put_eq.
    + rewrite (regionIds_eq _ _ _ Hc). now rewrite HL.
    + rewrite (regionElements_eq _ _ _ _ Hc). now rewrite HL.
    + rewrite (expand_eq _ _ _ _ Hc). cbv zeta. now rewrite HL.
    + rewrite (collapse_eq _ _ _ _ Hc). cbv zeta. now rewrite HL.
Qed.

Lemma removeRegionElement_of_unlisted_region_witness :
  removeRegionElement Fixture.component (Some 1) Fixture.two_controlled
  = (Normal tt, Fixture.two_controlled).
Proof.
  apply (removeRegionElement_of_unlisted_region
           Fixture.page Fixture.component 2 Fixture.two_controlled).
  - reflexivity.
  - vm_compute. reflexivity.
Defined.

(** ** [addRegionElement] *)

Lemma classList_with_id rs r s h : classList (with_id rs r s) h = classList s h.
Proof. apply classList_ext, attr_with_id_other. discriminate. Qed.

Lemma classList_contains_added_any rs c r v s h c0 :
  classList_contains (added rs c r v s) h c0
  = if decide (r = h /\ COLLAPSIBLE_REGION_CLASS = c0) then true
    else classList_contains s h c0.
Proof.
  transitivity (classList_contains
                  (add_class r COLLAPSIBLE_REGION_CLASS (with_id rs r s)) h c0).
  - unfold classList_contains. f_equal. apply classList_ext.
    apply attr_added_class.
  - rewrite classList_contains_add_class by apply region_class_token.
    case_decide; [reflexivity|].
    unfold classList_contains. now rewrite classList_with_id.
Qed.

(** X8.  On an initialized component [addRegionElement(region)] with an
    element completes and leaves the region normalized: its id is the one
    it had, or ["region-"] followed by the random string drawn; it has the
    region class and every class it had before; its role is ["region"]; it
    is hidden exactly when the control's lowercased [aria-expanded] is
    ['false']; its tabindex is the one it had, or ["-1"]; and its id, when
    not empty and free of spaces, is listed by the control. *)
Theorem addRegionElement_normalizes_region :
  forall (randomString : nat -> string) (this : Collapsible) (c r : nat)
         (v : string) (s : dom),
    controlElement this = Some c ->
    attr s c "aria-expanded" = Some v ->
    exists s',
      addRegionElement randomString this (Some r) s = (Normal tt, s') /\
      attr s' r "id"
      = Some (default ("region-" +:+ randomString (drawn s)) (attr s r "id")) /\
      classList_contains s' r COLLAPSIBLE_REGION_CLASS = true /\
      (forall c0, classList_contains s r c0 = true ->
                  classList_contains s' r c0 = true) /\
      attr s' r "role" = Some "region" /\
      attr s' r "hidden"
      = (if String.eqb (Js.toLowerCase v) "false" then Some "" else None) /\
      attr s' r "tabindex" = Some (default "-1" (attr s r "tabindex")) /\
      (good_id (id_of s' r) -> In (id_of s' r) (listed s' c)).
Proof.
  intros rs this c r v s Hc Hv. exists (added rs c r v s).
  split; [now apply addRegionElement_eq|].
  split; [|split; [|split; [|split; [|split; [|split]]]]].
  - rewrite attr_added_id, attr_with_id. now rewrite decide_True.
  - rewrite classList_contains_added_any. now rewrite decide_True.
  - intros c0 H. rewrite classList_contains_added_any.
    case_decide; [reflexivity | exact H].
  - rewrite attr_added_role. now rewrite decide_True.
  - rewrite attr_added_hidden. now rewrite decide_True.
  - rewrite attr_added_tabindex. now rewrite decide_True.
  - intros Hg. apply in_listed_added; auto.
Qed.

Lemma addRegionElement_normalizes_region_witness :
  exists s',
    addRegionElement Fixture.randomString Fixture.component (Some 1)
      Fixture.two_controlled = (Normal tt, s') /\
    attr s' 1 "id" = Some "region-r".
Proof.
  destruct (addRegionElement_normalizes_region Fixture.randomString
              Fixture.component 2 1 "true" Fixture.two_controlled)
    as (s' & H1 & H2 & _).
  - reflexivity.
  - vm_compute. reflexivity.
  - exists s'. split; [exact H1|]. rewrite H2. vm_compute. reflexivity.
Defined.

Lemma drawn_put_attr h a v s : drawn (put_attr h a v s) = drawn s.
Proof. reflexivity. Qed.

Lemma drawn_del_attr h a s : drawn (del_attr h a s) = drawn s.
Proof. reflexivity. Qed.

Lemma drawn_default_attr h a v s : drawn (default_attr h a v s) = drawn s.
Proof. unfold default_attr. now destruct (bool_decide _). Qed.

Lemma drawn_added rs c r v s :
  drawn (added rs c r v s)
  = if bool_decide (is_Some (attr s r "id")) then drawn s else S (drawn s).
Proof.
  unfold added, add_id, prepared, shown_or_hidden, add_class. cbv zeta.
  assert (H : drawn (with_id rs r s)
              = if bool_decide (is_Some (attr s r "id")) then drawn s
                else S (drawn s)).
  { unfold with_id. now destruct (bool_decide _). }
  destruct (negb _); destruct (String.eqb _ _);
    rewrite ?drawn_put_attr, ?drawn_default_attr, ?drawn_put_attr,
      ?drawn_del_attr, ?drawn_put_attr; exact H.
Qed.

Lemma attr_added_frame rs c r v s h a :
  ~ (h = r /\ In a region_attributes) ->
  ~ (h = c /\ a = "aria-controls") ->
  attr (added rs c r v s) h a = attr s h a.
Proof.
  intros Hr Hc'.
  destruct (decide (a = "aria-controls")) as [->|Hac].
  { unfold added, add_id. cbv zeta.
    assert (Hp : attr (prepared rs r v s) h "aria-controls"
                 = attr s h "aria-controls")
      by (apply attr_prepared_other; discriminate).
    destruct (negb _); [|exact Hp].
    rewrite attr_put_ne; [exact Hp|]. left. intros ->. apply Hc'. auto. }
  destruct (decide (h = r)) as [->|Hh].
  { apply attr_added_other; [| | | | |exact Hac];
      intros ->; apply Hr; split; auto; simpl; auto 10. }
  assert (Hne : r <> h) by congruence.
  destruct (decide (a = "id")) as [->|H1].
  { rewrite attr_added_id, attr_with_id.
    apply decide_False. intros [E _]. contradiction. }
  destruct (decide (a = "class")) as [->|H2].
  { rewrite attr_added_class, attr_add_class_other by now left.
    apply attr_with_id_other. discriminate. }
  destruct (decide (a = "role")) as [->|H3].
  { rewrite attr_added_role. now apply decide_False. }
  destruct (decide (a = "hidden")) as [->|H4].
  { rewrite attr_added_hidden. now apply decide_False. }
  destruct (decide (a = "tabindex")) as [->|H5].
  { rewrite attr_added_tabindex. now apply decide_False. }
  now apply attr_added_other.
Qed.

(** X9.  On an initialized component [addRegionElement(region)] writes only
    the attributes [id], [class], [role], [hidden] and [tabindex] of the
    region and the [aria-controls] of the control: every other attribute of
    every element is as before, the control's [aria-expanded] among them.
    It calls [randomString] once when the region has no [id] attribute and
    never otherwise. *)
Theorem addRegionElement_writes_only_region :
  forall (randomString : nat -> string) (this : Collapsible) (c r : nat)
         (v : string) (s : dom),
    controlElement this = Some c ->
    attr s c "aria-expanded" = Some v ->
    let s' := snd (addRegionElement randomString this (Some r) s) in
    (forall h a,
        attr s' h a <> attr s h a ->
        (h = r /\ In a region_attributes) \/ (h = c /\ a = "aria-controls")) /\
    attr s' c "aria-expanded" = Some v /\
    (is_Some (attr s r "id") -> drawn s' = drawn s) /\
    (attr s r "id" = None -> drawn s' = S (drawn s)).
Proof.
  intros rs this c r v s Hc Hv s'. unfold s'.
  rewrite (addRegionElement_eq rs this c r v s Hc Hv). cbn [snd].
  split; [|split; [|split]].
  - intros h a Hd.
    destruct (decide (h = r /\ a ∈ region_attributes)) as [[E1 E2]|Hr];
      [left; split; [exact E1 | now apply list_elem_of_In]|].
    destruct (decide (h = c /\ a = "aria-controls")) as [E|Hc']; [now right|].
    exfalso. apply Hd. apply attr_added_frame; [|exact Hc'].
    intros [E1 E2]. apply Hr. split; [exact E1 | now apply list_elem_of_In].
  - rewrite attr_added_other by discriminate. exact Hv.
  - intros H. rewrite drawn_added. now rewrite bool_decide_eq_true_2.
  - intros H. rewrite drawn_added. rewrite bool_decide_eq_false_2; [reflexivity|].
    rewrite H. intros [? ?]. discriminate.
Qed.

Lemma addRegionElement_writes_only_region_witness :
  attr (snd (addRegionElement Fixture.randomString Fixture.component (Some 3)
               Fixture.two_controlled)) 2 "aria-expanded" = Some "true".
Proof.
  apply (addRegionElement_writes_only_region Fixture.randomString
           Fixture.component 2 3 "true" Fixture.two_controlled).
  - reflexivity.
  - vm_compute. reflexivity.
Defined.

(** ** The constructor *)










(** ** Several regions at once *)

Lemma forEach_app {A} (f : A -> M unit) l1 l2 s :
  forEach f (l1 ++ l2) s = bind (forEach f l1) (fun _ => forEach f l2) s.
Proof.
  revert s. induction l1 as [|x l1 IH]; intros s; [reflexivity|].
  cbn [app forEach]. unfold bind at 1 2 3.
  destruct (f x s) as [[[]|e] s']; [|reflexivity].
  rewrite IH. reflexivity.
Qed.

Lemma forEach_map {A B} (f : B -> M unit) (g : A -> B) l s :
  forEach f (List.map g l) s = forEach (fun x => f (g x)) l s.
Proof.
  revert s. induction l as [|x l IH]; intros s; [reflexivity|].
  cbn [List.map forEach]. unfold bind. destruct (f (g x) s) as [[[]|e] s'];
    [apply IH | reflexivity].
Qed.

(** X12.  On a constructed, initialized widget [addRegionElements] adds its
    arguments from left to right and stops at the first [null]: the
    elements before it have been added, a [TypeError] is thrown, and the
    arguments after it are not looked at. *)
Theorem addRegionElements_stops_at_null :
  forall (randomString : nat -> string) (w : MaterialExtCollapsible)
         (this : Collapsible) (c : nat) (v : string) (s : dom)
         (before : list nat) (rest : list (option nat)),
    collapsible w = Some this ->
    controlElement this = Some c ->
    attr s c "aria-expanded" = Some v ->
    addRegionElements randomString w (List.map Some before) s
      = (Normal tt, add_all randomString c v before s) /\
    addRegionElements randomString w (List.map Some before ++ None :: rest) s
      = (Throw TypeError, add_all randomString c v before s).
Proof.
  intros rs w this c v s before rest Hw Hc Hv.
  assert (H1 : forall l s0,
             addRegionElements rs w l s0 = forEach (addRegionElement rs this) l s0).
  { intros l s0. unfold addRegionElements. rewrite Hw. reflexivity. }
  assert (H2 : forEach (addRegionElement rs this) (List.map Some before) s
               = (Normal tt, add_all rs c v before s)).
  { rewrite forEach_map. now apply forEach_addRegionElement_eq. }
  rewrite !H1. split; [exact H2|].
  rewrite forEach_app. rewrite (bind_normal _ _ _ _ _ H2). reflexivity.
Qed.

Lemma addRegionElements_stops_at_null_witness :
  fst (addRegionElements Fixture.randomString Fixture.widget
         (List.map Some [3] ++ None :: [Some 4]) Fixture.two_controlled)
  = Throw TypeError.
Proof.
  rewrite (proj2 (addRegionElements_stops_at_null Fixture.randomString
                    Fixture.widget Fixture.component 2 "true"
                    Fixture.two_controlled [3] [Some 4]
                    eq_refl eq_refl ltac:(vm_compute; reflexivity))).
  reflexivity.
Defined.

(** ** What [regionElements] answers *)




(** X14.  On an initialized component whose listed ids are identifiers,
    adding an element that has an identifier for id, and is the first
    element of the document with that id, makes it one of the region
    elements: [regionElements] then completes, answers the element, and
    still answers every element it answered before. *)
Theorem added_element_is_a_region_element :
  forall (document : node) (randomString : nat -> string) (this : Collapsible)
         (c r : nat) (v id : string) (s : dom),
    controlElement this = Some c ->
    attr s c "aria-expanded" = Some v ->
    Forall (fun id => classify id = Identifier) (listed s c) ->
    attr s r "id" = Some id ->
    classify id = Identifier ->
    by_id document s id = Some r ->
    exists s' rs,
      addRegionElement randomString this (Some r) s = (Normal tt, s') /\
      regionElements document this s' = (Normal rs, s') /\
      In r rs /\
      (forall x, In x (regions_of document s c) -> In x rs).
Proof.
  intros document rs this c r v id s Hc Hv Hids Hid Hcl Hby.
  exists (added rs c r v s), (regions_of document (added rs c r v s) c).
  assert (Hidk : forall h, attr (added rs c r v s) h "id" = attr s h "id").
  { intros h. rewrite attr_added_id, attr_with_id.
    case_decide as E; [|reflexivity]. destruct E as [<- _]. now rewrite Hid. }
  assert (Hi : id_of (added rs c r v s) r = id)
    by (unfold id_of; now rewrite Hidk, Hid).
  assert (Hg : good_id (id_of (added rs c r v s) r))
    by (rewrite Hi; now apply identifier_good).
  assert (Hbyk : forall x, by_id document (added rs c r v s) x = by_id document s x).
  { intros x. apply by_id_ext. exact Hidk. }
  assert (Hbad : first_bad (listed (added rs c r v s) c) = None).
  { apply first_bad_none, List.Forall_forall. intros x Hx.
    pose proof (proj1 (in_listed_added rs c r v s x Hg) Hx) as Hx'.
    rewrite List.Forall_forall in Hids.
    destruct Hx' as [Hx'|Hx']; [apply Hids; exact Hx'|].
    rewrite Hx', Hi. exact Hcl. }
  split; [now apply addRegionElement_eq|].
  split; [rewrite (regionElements_eq _ _ _ _ Hc); now rewrite Hbad|]. split.
  - apply in_regions_of. exists id. split.
    + apply in_listed_added; [exact Hg|]. right. now rewrite Hi.
    + now rewrite Hbyk.
  - intros x Hx. apply in_regions_of in Hx as (i & Hin & Hr).
    apply in_regions_of. exists i. split.
    + apply in_listed_added; [exact Hg|]. now left.
    + now rewrite Hbyk.
Qed.

Lemma added_element_is_a_region_element_witness :
  exists s' rs,
    addRegionElement Fixture.randomString Fixture.component (Some 3)
      Fixture.two_controlled = (Normal tt, s') /\
    regionElements Fixture.page Fixture.component s' = (Normal rs, s') /\
    In 3 rs.
Proof.
  destruct (added_element_is_a_region_element Fixture.page
              Fixture.randomString Fixture.component 2 3 "true" "region-1"
              Fixture.two_controlled)
    as (s' & rs & H1 & H2 & H3 & _).
  - reflexivity.
  - vm_compute. reflexivity.
  - apply first_bad_none. vm_compute. reflexivity.
  - vm_compute. reflexivity.
  - vm_compute. reflexivity.
  - vm_compute. reflexivity.
  - exists s', rs. split; [exact H1|]. split; [exact H2 | exact H3].
Defined.
